(** * svgutils: the [Svg] document model of [libs/svg.js]

    A shallow embedding of the [Svg] container: its element tree, the
    lookups [findByType] and [findById], the serialisers [toJSON], [toXml]
    and [toString], the transform pipeline [applyMatrix] and the factory
    functions, followed by the properties proved about them. *)

From stdpp Require Import base list strings gmap pretty.
From Stdlib Require Import ZArith Lia.

Local Open Scope string_scope.
Local Open Scope list_scope.
Local Open Scope nat_scope.
Set Warnings "-register-all".

(** ** Shape elements *)

(** The kinds of leaf shapes.  A group is a separate constructor of
    [SvgObject]: the tag ["g"] is carried by groups and by nothing else. *)
Inductive ShapeType :=
  | TRect | TPolygon | TPolyline | TCircle | TEllipse | TLine | TPath.

Definition type_name (k : ShapeType) : string :=
  match k with
  | TRect => "rect"
  | TPolygon => "polygon"
  | TPolyline => "polyline"
  | TCircle => "circle"
  | TEllipse => "ellipse"
  | TLine => "line"
  | TPath => "path"
  end.

(** Coordinate data of a shape; the container never looks inside it. *)
Definition Coords := list (Z * Z).

Inductive SvgObject :=
  | Shape (kind : ShapeType) (id : option string) (coords : Coords)
  | Group (id : option string) (childs : list SvgObject).

(** [elem.type] *)
Definition elem_type (e : SvgObject) : string :=
  match e with
  | Shape k _ _ => type_name k
  | Group _ _ => "g"
  end.

(** [elem.id] *)
Definition elem_id (e : SvgObject) : option string :=
  match e with
  | Shape _ i _ => i
  | Group i _ => i
  end.

(** [group.childs] *)
Definition group_childs (e : SvgObject) : list SvgObject :=
  match e with
  | Shape _ _ _ => []
  | Group _ cs => cs
  end.

(** [elem.type == type] *)
Definition type_is (type : string) (e : SvgObject) : bool :=
  String.eqb (elem_type e) type.

(** [elem.id == id], for a string [id]: an element without id never matches. *)
Definition id_is (id : string) (e : SvgObject) : bool :=
  match elem_id e with
  | Some i => String.eqb i id
  | None => false
  end.

(** Induction on the element tree, with the hypothesis available for every
    child of a group. *)
Fixpoint SvgObject_tree_ind (P : SvgObject → Prop)
    (HS : ∀ k i c, P (Shape k i c))
    (HG : ∀ i cs, Forall P cs → P (Group i cs))
    (e : SvgObject) {struct e} : P e :=
  match e with
  | Shape k i c => HS k i c
  | Group i cs =>
      HG i cs
        ((fix all (l : list SvgObject) : Forall P l :=
            match l with
            | [] => Forall_nil_2 P
            | c :: l' => Forall_cons_2 P c l' (SvgObject_tree_ind P HS HG c) (all l')
            end) cs)
  end.

(** An element together with everything below it, in document order. *)
Fixpoint subtree (e : SvgObject) : list SvgObject :=
  e :: match e with
       | Shape _ _ _ => []
       | Group _ cs =>
           (fix below (l : list SvgObject) : list SvgObject :=
              match l with
              | [] => []
              | c :: l' => subtree c ++ below l'
              end) cs
       end.

(** All elements of a forest, depth first, parents before their children. *)
Definition preorder (els : list SvgObject) : list SvgObject :=
  els ≫= subtree.

(** The elements strictly below [e]. *)
Definition descendants (e : SvgObject) : list SvgObject :=
  preorder (group_childs e).

(** ** Group lookups *)

(** Modelled from the spec: [Group.prototype.findByType] of
    [libs/objects/group], which is not part of the sources at hand.  The
    group scans its own children in order, keeps those whose type matches
    and, when [all] is set, descends recursively into every nested group;
    the matches are handed back as the [childs] of a new group. *)
Fixpoint Group_findByType (type : string) (all : bool) (g : SvgObject)
    {struct g} : SvgObject :=
  Group None
    match g with
    | Shape _ _ _ => []
    | Group _ cs =>
        (fix scan (l : list SvgObject) : list SvgObject :=
           match l with
           | [] => []
           | c :: l' =>
               (if type_is type c then [c] else [])
               ++ (if all && type_is "g" c
                   then group_childs (Group_findByType type all c)
                   else [])
               ++ scan l'
           end) cs
    end.

(** Modelled from the spec: [Group.prototype.findById] of
    [libs/objects/group], which is not part of the sources at hand.  The
    group searches below itself depth first and answers with the first
    element carrying the id, or with [None] (JavaScript [null]) when there
    is none. *)
Fixpoint Group_findById (id : string) (g : SvgObject) {struct g}
    : option SvgObject :=
  match g with
  | Shape _ _ _ => None
  | Group _ cs =>
      (fix search (l : list SvgObject) : option SvgObject :=
         match l with
         | [] => None
         | c :: l' =>
             if id_is id c then Some c
             else match Group_findById id c with
                  | Some r => Some r
                  | None => search l'
                  end
         end) cs
  end.

(** ** The document *)

Record Svg := mkSvg { elements : list SvgObject }.

(** [new Svg()] *)
Definition new_Svg : Svg := mkSvg [].

(** [Svg.prototype.setElements] *)
Definition setElements (els : list SvgObject) (this : Svg) : Svg :=
  mkSvg els.

(** [Svg.prototype.addElement]: [this.elements.push(element)] *)
Definition addElement (element : SvgObject) (this : Svg) : Svg :=
  mkSvg (elements this ++ [element]).

(** The body of the loop of [findByType], run on one top-level element. *)
Definition findByType_visit (type : string) (all : bool)
    (svg : Svg) (elem : SvgObject) : Svg :=
  let svg1 := if type_is type elem then addElement elem svg else svg in
  if all && type_is "g" elem then
    let group := Group_findByType type all elem in
    foldl (λ s child, addElement child s) svg1 (group_childs group)
  else svg1.

(** [Svg.prototype.findByType]: one pass of [_.each] over the top-level
    elements, pushing onto a new [Svg]. *)
Definition findByType (type : string) (all : bool) (this : Svg) : Svg :=
  foldl (findByType_visit type all) new_Svg (elements this).

(** The body of the loop of [findById]: it assigns [returnElem] and has no
    way to leave the loop. *)
Definition findById_visit (id : string)
    (returnElem : option SvgObject) (elem : SvgObject) : option SvgObject :=
  if id_is id elem then Some elem
  else if type_is "g" elem then Group_findById id elem
  else returnElem.

(** [Svg.prototype.findById] *)
Definition findById (id : string) (this : Svg) : option SvgObject :=
  foldl (findById_visit id) None (elements this).

(** What one top-level element contributes to the result of [findByType]. *)
Definition found_at (type : string) (all : bool) (e : SvgObject)
    : list SvgObject :=
  (if type_is type e then [e] else [])
  ++ (if all && type_is "g" e
      then group_childs (Group_findByType type all e) else []).

(** The result with every top-level match first and the matches from
    inside the groups after them. *)
Definition top_level_first (type : string) (this : Svg) : list SvgObject :=
  filter (λ e, elem_type e = type) (elements this)
  ++ filter (λ e, elem_type e = type) (elements this ≫= descendants).

(** Ids are unique over the whole tree when no id occurs twice in the
    document-order listing of all elements. *)
Definition all_ids (this : Svg) : list string :=
  omap elem_id (preorder (elements this)).

Definition unique_ids (this : Svg) : Prop := NoDup (all_ids this).

(** ** Serialisation *)

(** JSON values, as produced by [element.toJSON] and by [JSON.parse]. *)
Inductive Json :=
  | JNull
  | JBool (b : bool)
  | JNum (n : Z)
  | JStr (s : string)
  | JArr (items : list Json)
  | JObj (fields : list (string * Json)).

(** The object [{ elements : [...] }] built by [toJSON]. *)
Record DocumentJSON := mkDocumentJSON { json_elements : list Json }.

(** A node of the [xmlbuilder] library: tag name, attributes in the order
    they were set, and children in the order they were imported. *)
Inductive XmlNode :=
  | XmlElem (name : string) (atts : list (string * string))
      (children : list XmlNode).

(** [builder.create(name)] *)
Definition xml_create (name : string) : XmlNode := XmlElem name [] [].

(** [xml.att(key, value)] *)
Definition xml_att (key value : string) (xml : XmlNode) : XmlNode :=
  match xml with
  | XmlElem n atts cs => XmlElem n (atts ++ [(key, value)]) cs
  end.

(** [xml.importXMLBuilder(child)] *)
Definition xml_import (child : XmlNode) (xml : XmlNode) : XmlNode :=
  match xml with
  | XmlElem n atts cs => XmlElem n atts (cs ++ [child])
  end.

(** What the container needs from its collaborators in order to serialise:
    each element's own [toJSON] and [toXml], and the [toString] of the XML
    builder. *)
Class Serialisers := {
  elem_toJSON : bool → SvgObject → Json;
  elem_toXml : bool → SvgObject → XmlNode;
  xml_toString : XmlNode → string
}.

(** [if(typeof matrix == 'undefined') matrix = false;] *)
Definition matrix_flag (matrix : option bool) : bool :=
  match matrix with
  | Some b => b
  | None => false
  end.

Section Serialisation.
Context `{Serialisers}.

(** [Svg.prototype.toJSON] *)
Definition toJSON (matrix : option bool) (this : Svg) : DocumentJSON :=
  let matrix := matrix_flag matrix in
  foldl
    (λ json element,
       mkDocumentJSON (json_elements json ++ [elem_toJSON matrix element]))
    (mkDocumentJSON []) (elements this).

(** [Svg.prototype.toXml] *)
Definition toXml (matrix : option bool) (this : Svg) : XmlNode :=
  let matrix := matrix_flag matrix in
  let xml :=
    xml_att "xmlns" "http://www.w3.org/2000/svg"
      (xml_att "version" "1.1" (xml_create "svg")) in
  foldl (λ xml element, xml_import (elem_toXml matrix element) xml)
    xml (elements this).

(** [Svg.prototype.toString] *)
Definition toString (content : bool) (matrix : option bool) (this : Svg)
    : string :=
  let matrix := matrix_flag matrix in
  if content then xml_toString (toXml (Some matrix) this)
  else
    foldl
      (λ string element,
         string +:+ xml_toString (elem_toXml matrix element))
      EmptyString (elements this).
End Serialisation.

(** The texts of a list, one after the other, with nothing in between. *)
Definition join (l : list string) : string := foldr String.append EmptyString l.

(** ** What a caller's callback can be handed *)

Definition Error := string.

Inductive JsArg :=
  | ArgNull
  | ArgError (err : Error)
  | ArgSvg (svg : Svg).

(** One invocation of a callback: its argument list. *)
Definition Invocation := list JsArg.

(** An error-first failure report: [callback(err)]. *)
Definition is_failure_report (inv : Invocation) : bool :=
  match inv with
  | ArgError _ :: _ => true
  | _ => false
  end.

(** An error-first success report: [callback(null, svg)]. *)
Definition is_success_report (inv : Invocation) : bool :=
  match inv with
  | [ArgNull; ArgSvg _] => true
  | _ => false
  end.

(** ** Factory functions *)

(** What running a factory function does, as far as its caller can see:
    the invocations of the callback, in order, and the exception that
    escaped, if any. *)
Record Outcome := mkOutcome {
  invocations : list Invocation;
  thrown : option Error
}.

Definition calls_back (inv : Invocation) : Outcome := mkOutcome [inv] None.
Definition throws (err : Error) : Outcome := mkOutcome [] (Some err).

(** What a collaborator that is handed a callback, or that emits events,
    can do: deliver its result, raise an exception instead, or return
    without ever delivering anything. *)
Inductive Attempted (A : Type) :=
  | Delivered (a : A)
  | Raised (err : Error)
  | Silent.
Arguments Delivered {A} a.
Arguments Raised {A} err.
Arguments Silent {A}.

(** The world around the factories.  [fs.readFile] passes [inl err] as the
    first callback argument, and [JSON.parse] throws it.  The converters
    of [SvgParser] deliver by calling back with [(err, elements)], here
    [inl err] or [inr elements]; [xml2js] delivers by emitting ['end'] with
    the parsed document.  What these three do when they do not deliver is
    theirs to decide, and is left open. *)
Class FileSystem := {
  fs_readFile : string → Error + string
}.

Class JsonWorld := {
  JSON_parse : string → Error + Json;
  convertJson : Json → Attempted (Error + list SvgObject)
}.

Class XmlWorld (XmlDoc : Type) := {
  xml2js_parseString : string → Attempted XmlDoc;
  convertXml : XmlDoc → Attempted (Error + list SvgObject)
}.

Section Factories.
Context {XmlDoc : Type} `{FileSystem} `{JsonWorld} `{XmlWorld XmlDoc}.

(** The callback shared by the two factories that receive converted
    elements: [if(err){ callback(err); return; } ...; callback(null, svg)] *)
Definition on_converted (r : Error + list SvgObject) : Outcome :=
  match r with
  | inl err => calls_back [ArgError err]
  | inr els => calls_back [ArgNull; ArgSvg (setElements els new_Svg)]
  end.

(** A call of a converter with that callback; nothing around the call
    catches what the converter raises. *)
Definition converting (c : Attempted (Error + list SvgObject)) : Outcome :=
  match c with
  | Delivered r => on_converted r
  | Raised err => throws err
  | Silent => mkOutcome [] None
  end.

(** [Svg.fromJson] *)
Definition fromJson (json : Json) : Outcome :=
  converting (convertJson json).

(** [Svg.fromJsonString]: [JSON.parse] runs outside any [try]. *)
Definition fromJsonString (string : string) : Outcome :=
  match JSON_parse string with
  | inl err => throws err
  | inr json => fromJson json
  end.

(** [Svg.fromJsonFile] *)
Definition fromJsonFile (path : string) : Outcome :=
  match fs_readFile path with
  | inl error => calls_back [ArgError error]
  | inr data => fromJsonString data
  end.

(** [Svg.fromXmlString]: the callback is reached from the ['end']
    listener alone, and no other listener is registered; when the parser
    emits no ['end'], the callback does not run, and whether anything is
    raised is up to the parser. *)
Definition fromXmlString (string : string) : Outcome :=
  match xml2js_parseString string with
  | Delivered result => converting (convertXml result)
  | Raised err => throws err
  | Silent => mkOutcome [] None
  end.

End Factories.

(** ** Matrices as mutable objects *)

(** The arithmetic of the matrix library: the value of [new Matrix()] and
    the product computed by [add]. *)
Class MatrixLib (M : Type) := {
  mx_identity : M;
  mx_mul : M → M → M
}.

(** What the pipeline asks of the elements and of [Matrix.fromElement].
    [getBBox] and [applyMatrix] hand their result to a callback that takes
    the value alone; [None] stands for a computation that fails, that is,
    one that never hands over a value.  What such an element makes the
    caller see, an exception or nothing, is told apart further down, under
    [Collaborators]. *)
Class ElementOps (M BBox : Type) := {
  elem_getBBox : SvgObject → option BBox;
  fromElement : BBox → SvgObject → M;
  elem_applyMatrix : M → SvgObject → option SvgObject
}.

(** Matrix objects live in a store and are named by their address, so that
    two variables can hold the same object. *)
Abbreviation ref := nat (only parsing).

Section MatrixObjects.
Context {M : Type} `{MatrixLib M}.

(** Modelled from the spec: the [Matrix] class of [libs/matrix/extends],
    which is not part of the sources at hand.  [new Matrix()] allocates
    the identity. *)
Definition Matrix_new (h : list M) : ref * list M :=
  (length h, h ++ [mx_identity]).

(** Modelled from the spec: [this.add(mat)] composes [mat] onto the
    receiver in place and answers the receiver. *)
Definition Matrix_add (this mat : ref) (h : list M) : list M :=
  match h !! this, h !! mat with
  | Some a, Some b => <[this := mx_mul a b]> h
  | _, _ => h
  end.

(** Modelled from the spec: [this.clone()] allocates a copy. *)
Definition Matrix_clone (this : ref) (h : list M) : option (ref * list M) :=
  match h !! this with
  | Some a => Some (length h, h ++ [a])
  | None => None
  end.
End MatrixObjects.

(** ** The transform pipeline *)

(** The [matrix] argument of [applyMatrix]. *)
Inductive MatrixArg :=
  | NoMatrix                       (* null or undefined *)
  | MatrixArray (mats : list ref)  (* matrix instanceof Array *)
  | OneMatrix (mat : ref).

(** How far the asynchronous chain of one element has come. *)
Inductive Stage :=
  | AwaitBBox                              (* getBBox called, no answer yet *)
  | AwaitApply (result : option SvgObject) (* elem.applyMatrix called *)
  | Finished.                              (* c() called *)

(** The callbacks that the environment may fire.  The elements are taken
    to call a callback only once they were given it, and once at most: an
    event for which no callback is pending stands for nothing that happens
    in the program, and leaves the pipeline as it is. *)
Inductive Event :=
  | BBoxReady (i : nat)   (* the callback given to getBBox of element i *)
  | Applied (i : nat).    (* the callback given to applyMatrix of element i *)

(** The state of one call of [Svg.prototype.applyMatrix].  The last two
    fields are a record of what happened and influence nothing. *)
Record Pipeline {M : Type} := mkPipeline {
  heap : list M;              (* the matrix objects *)
  base : ref;                 (* the variable applyMatrix *)
  source : list SvgObject;    (* this.elements *)
  stages : list Stage;        (* one per element of source *)
  svg : Svg;                  (* the Svg under construction *)
  completed : nat;            (* the counter of async.each *)
  calls : list Invocation;    (* invocations of callback so far *)
  composed : list ref;        (* receivers of the per-element add *)
  finished : list nat         (* elements in the order of their c() *)
}.
Arguments Pipeline : clear implicits.

Section ApplyMatrix.
Context {M BBox : Type} `{MatrixLib M} `{ElementOps M BBox}.

(** Lines 145 to 154: the base matrix. *)
Definition base_matrix (matrix : MatrixArg) (h : list M) : ref * list M :=
  let '(applyMatrix, h) := Matrix_new h in
  match matrix with
  | NoMatrix => (applyMatrix, h)
  | MatrixArray mats =>
      (applyMatrix, foldl (λ h mat, Matrix_add applyMatrix mat h) h mats)
  | OneMatrix mat => (mat, h)
  end.

(** [applyMatrix] up to the point where [async.each] has called the
    iterator on every element.  On an empty array [async.each] calls its
    final callback at once. *)
Definition applyMatrix_start (matrix : MatrixArg) (this : Svg) (h : list M)
    : Pipeline M :=
  let '(applyMatrix, h) := base_matrix matrix h in
  let n := length (elements this) in
  {| heap := h;
     base := applyMatrix;
     source := elements this;
     stages := replicate n AwaitBBox;
     svg := new_Svg;
     completed := 0;
     calls := if decide (n = 0) then [[ArgSvg new_Svg]] else [];
     composed := [];
     finished := [] |}.

(** The callback of [getBBox] for element [i]: clone the base matrix,
    compose the matrix of the element onto the clone, and call
    [elem.applyMatrix] with the result. *)
Definition on_bbox (i : nat) (p : Pipeline M) : Pipeline M :=
  match stages p !! i, source p !! i with
  | Some AwaitBBox, Some elem =>
      match elem_getBBox elem with
      | Some bbox =>
          match Matrix_clone (base p) (heap p) with
          | Some (applyCloneMatrix, h1) =>
              let own := length h1 in
              let h2 := h1 ++ [fromElement bbox elem] in
              let h3 := Matrix_add applyCloneMatrix own h2 in
              match h3 !! applyCloneMatrix with
              | Some matrix =>
                  {| heap := h3;
                     base := base p;
                     source := source p;
                     stages :=
                       <[i := AwaitApply (elem_applyMatrix matrix elem)]>
                         (stages p);
                     svg := svg p;
                     completed := completed p;
                     calls := calls p;
                     composed := composed p ++ [applyCloneMatrix];
                     finished := finished p |}
              | None => p
              end
          | None => p
          end
      | None => p
      end
  | _, _ => p
  end.

(** The callback of [elem.applyMatrix] for element [i]:
    [svg.addElement(e); c();], where [c] counts and, once every element
    is counted, runs [callback(svg)]. *)
Definition on_applied (i : nat) (p : Pipeline M) : Pipeline M :=
  match stages p !! i with
  | Some (AwaitApply (Some e)) =>
      let svg' := addElement e (svg p) in
      let completed' := S (completed p) in
      {| heap := heap p;
         base := base p;
         source := source p;
         stages := <[i := Finished]> (stages p);
         svg := svg';
         completed := completed';
         calls :=
           if decide (completed' = length (source p))
           then calls p ++ [[ArgSvg svg']]
           else calls p;
         composed := composed p;
         finished := finished p ++ [i] |}
  | _ => p
  end.

Definition step (p : Pipeline M) (ev : Event) : Pipeline M :=
  match ev with
  | BBoxReady i => on_bbox i p
  | Applied i => on_applied i p
  end.

(** A schedule is the order in which the environment fires callbacks. *)
Definition run (schedule : list Event) (p : Pipeline M) : Pipeline M :=
  foldl step p schedule.

(** [Svg.prototype.applyMatrix] under a schedule. *)
Definition applyMatrix (matrix : MatrixArg) (schedule : list Event)
    (this : Svg) (h : list M) : Pipeline M :=
  run schedule (applyMatrix_start matrix this h).

(** The schedule of collaborators that answer at once: every chain runs
    to its end before the next element is dispatched. *)
Definition immediate (n : nat) : list Event :=
  seq 0 n ≫= (λ i, [BBoxReady i; Applied i]).

(** The element that the chain of [elem] produces from a base matrix of
    value [b]. *)
Definition transformed (b : M) (elem : SvgObject) : option SvgObject :=
  match elem_getBBox elem with
  | Some bbox => elem_applyMatrix (mx_mul b (fromElement bbox elem)) elem
  | None => None
  end.
End ApplyMatrix.

(** ** Vocabulary of the pipeline properties *)

Section PipelineVocabulary.
Context {M BBox : Type} `{MatrixLib M} `{ElementOps M BBox}.

(** The value held by the base matrix, if the variable names an object. *)
Definition base_value (p : Pipeline M) : option M := heap p !! base p.

(** The element that the chain of [elem] hands to [svg.addElement]. *)
Definition chain (b : option M) (elem : SvgObject) : option SvgObject :=
  match b with
  | Some b => transformed b elem
  | None => None
  end.

(** What the caller and the elements can observe of a pipeline: all of
    it except the matrix store. *)
Definition visible (p : Pipeline M)
    : list SvgObject * list Stage * Svg * nat * list Invocation * list nat :=
  (source p, stages p, svg p, completed p, calls p, finished p).

(** The state of a pipeline that was started on the elements [els] with
    store [h0] and a base matrix of value [b]. *)
Record consistent (h0 : list M) (b : option M) (els : list SvgObject)
    (p : Pipeline M) : Prop := {
  c_source : source p = els;
  c_heap : h0 `prefix_of` heap p;
  c_base : heap p !! base p = b;
  c_stages_len : length (stages p) = length els;
  c_stage : ∀ i st, stages p !! i = Some st →
    match st with
    | AwaitBBox => i ∉ finished p
    | AwaitApply r => (i ∉ finished p) ∧ r = (els !! i ≫= chain b)
    | Finished => i ∈ finished p
    end;
  c_finished_NoDup : NoDup (finished p);
  c_finished_stage : ∀ i, i ∈ finished p → stages p !! i = Some Finished;
  c_svg :
    Some <$> elements (svg p) = (λ i, els !! i ≫= chain b) <$> finished p;
  c_completed : completed p = length (finished p);
  c_calls :
    calls p = if decide (length (finished p) = length els)
              then [[ArgSvg (svg p)]] else [];
  c_composed_NoDup : NoDup (composed p);
  c_composed_fresh :
    Forall (λ r, length h0 ≤ r ∧ base p < r ∧ r < length (heap p)) (composed p)
}.
(** The receiver [r] is the clone made for element [i]: it holds the
    value of the base matrix with the matrix of that element composed onto
    it, and the matrix of the element is the object allocated next. *)
Definition clone_of (bv : M) (els : list SvgObject) (hp : list M)
    (i : nat) (r : ref) : Prop :=
  ∃ e bbox,
    els !! i = Some e ∧ elem_getBBox e = Some bbox
    ∧ hp !! r = Some (mx_mul bv (fromElement bbox e))
    ∧ hp !! S r = Some (fromElement bbox e).

(** Each element whose bounding box has arrived, and no other, has a
    clone of the base matrix among the receivers; [order] lists these
    elements in the order of their receivers. *)
Definition cloned_per_element (bv : M) (els : list SvgObject)
    (p : Pipeline M) : Prop :=
  ∃ order : list nat,
    NoDup order
    ∧ (∀ i, i ∈ order ↔ ∃ st, stages p !! i = Some st ∧ st ≠ AwaitBBox)
    ∧ Forall2 (clone_of bv els (heap p)) order (composed p).
End PipelineVocabulary.

(** ** Saving to disk *)

(** What a callback of [save] or [savePng] can be handed. *)
Inductive SaveArg :=
  | SaveNull
  | SaveError (err : Error)
  | SavePath (path : string).

(** The clock behind [new Date().getTime()]: what the n-th reading since
    the start of the program returns, in milliseconds. *)
Class Clock := {
  clock_reading : nat → Z
}.

(** The disk behind [fs.writeFile], which may refuse a write to a path,
    and the converter behind [gm(file).write(output, ...)], which reads the
    files and either fails or leaves new files behind. *)
Class Disk := {
  write_error : gmap string string → string → option Error;
  gm_write : gmap string string → string → string → Error + gmap string string
}.

(** The files on disk and the number of clock readings taken so far. *)
Record World := mkWorld {
  files : gmap string string;
  readings : nat
}.

(** [new Date().getTime()] *)
Definition getTime `{Clock} (w : World) : Z * World :=
  (clock_reading (readings w), mkWorld (files w) (S (readings w))).

(** ['/tmp/export_' + time + extension] *)
Definition export_path (time : Z) (extension : string) : string :=
  "/tmp/export_" +:+ pretty time +:+ extension.

(** [_.extend({}, defOpts, params)]: the keys of [params] win. *)
Definition extend_defaults (defOpts params : gmap string string)
    : gmap string string :=
  params ∪ (defOpts ∪ ∅).

(** The argument list of an error-first callback of [save]. *)
Definition save_report (r : Error + string) : list SaveArg :=
  match r with
  | inl err => [SaveError err]
  | inr output => [SaveNull; SavePath output]
  end.

Section Saving.
Context `{Serialisers} `{Clock} `{Disk}.

(** [Svg.prototype.save], up to the arguments it hands to its callback:
    [inl err] for [callback(err)], [inr output] for
    [callback(null, params.output)]. *)
Definition save_result (params : gmap string string) (this : Svg) (w : World)
    : (Error + string) * World :=
  let '(time, w) := getTime w in
  let defOpts := {[ "output" := export_path time ".svg" ]} in
  let params := extend_defaults defOpts params in
  let output := params !!! "output" in
  match write_error (files w) output with
  | Some err => (inl err, w)
  | None =>
      (inr output,
       mkWorld (<[output := toString true None this]> (files w)) (readings w))
  end.

(** [Svg.prototype.save] *)
Definition save (params : gmap string string) (this : Svg) (w : World)
    : list SaveArg * World :=
  let '(r, w) := save_result params this w in (save_report r, w).

(** [Svg.prototype.savePng] *)
Definition savePng (params : gmap string string) (this : Svg) (w : World)
    : list SaveArg * World :=
  let '(time, w) := getTime w in
  let defOpts := {[ "output" := export_path time ".png" ]} in
  let params := extend_defaults defOpts params in
  let '(r, w) := save_result ∅ this w in
  match r with
  | inl err => ([SaveError err], w)
  | inr file =>
      match gm_write (files w) file (params !!! "output") with
      | inl err => ([SaveError err], w)
      | inr files' =>
          ([SaveNull; SavePath (params !!! "output")],
           mkWorld files' (readings w))
      end
  end.
End Saving.

(** ** Documents as objects that share arrays

    [setElements] stores the array it is given, not a copy of it, and
    [addElement] pushes onto whatever array the document holds.  Here the
    arrays live in a store, and an [Svg] object is the address of the array
    in its field [elements]. *)

Module Shared.

Record Objects := mkObjects {
  arrays : list (list SvgObject);   (* the arrays, by address *)
  svgs : list ref                   (* this.elements of each Svg, by address *)
}.

(** [new Svg()]: a new object whose [elements] is a new empty array. *)
Definition new_Svg (o : Objects) : ref * Objects :=
  (length (svgs o),
   mkObjects (arrays o ++ [[]]) (svgs o ++ [length (arrays o)])).

(** [Svg.prototype.setElements]: [this.elements = elements] *)
Definition setElements (elements : ref) (this : ref) (o : Objects) : Objects :=
  mkObjects (arrays o) (<[this := elements]> (svgs o)).

(** [Svg.prototype.addElement]: [this.elements.push(element)] *)
Definition addElement (element : SvgObject) (this : ref) (o : Objects)
    : Objects :=
  match svgs o !! this with
  | Some a =>
      match arrays o !! a with
      | Some l => mkObjects (<[a := l ++ [element]]> (arrays o)) (svgs o)
      | None => o
      end
  | None => o
  end.

(** The elements that the document [this] holds at the moment. *)
Definition elements_of (this : ref) (o : Objects) : option (list SvgObject) :=
  match svgs o !! this with
  | Some a => arrays o !! a
  | None => None
  end.

End Shared.

(** ** A reference implementation of the collaborators

    Small, executable stand-ins for the matrix library, the shapes, the
    JSON reader and the file system.  Nothing in the properties below
    depends on them; they serve to run the definitions on examples. *)

Module Reference.

(** The affine map [(x, y) ↦ (a·x + c·y + e, b·x + d·y + f)]. *)
Record Affine := mkAffine { ma : Z; mb : Z; mc : Z; md : Z; me : Z; mf : Z }.

Definition affine_identity : Affine := mkAffine 1 0 0 1 0 0.

(** [affine_mul p q] first applies [q], then [p]. *)
Definition affine_mul (p q : Affine) : Affine :=
  mkAffine (ma p * ma q + mc p * mb q) (mb p * ma q + md p * mb q)
           (ma p * mc q + mc p * md q) (mb p * mc q + md p * md q)
           (ma p * me q + mc p * mf q + me p)
           (mb p * me q + md p * mf q + mf p).

Definition affine_point (m : Affine) (pt : Z * Z) : Z * Z :=
  (ma m * pt.1 + mc m * pt.2 + me m, mb m * pt.1 + md m * pt.2 + mf m)%Z.

Definition translation (dx dy : Z) : Affine := mkAffine 1 0 0 1 dx dy.

(** A quarter turn about the origin. *)
Definition quarter_turn : Affine := mkAffine 0 1 (-1) 0 0 0.

Global Instance affine_lib : MatrixLib Affine :=
  {| mx_identity := affine_identity; mx_mul := affine_mul |}.

Record BBox := mkBBox { bb_x : Z; bb_y : Z; bb_width : Z; bb_height : Z }.

(** The points of an element, those of its children included. *)
Fixpoint points (e : SvgObject) : Coords :=
  match e with
  | Shape _ _ c => c
  | Group _ cs =>
      (fix below (l : list SvgObject) : Coords :=
         match l with
         | [] => []
         | c :: l' => points c ++ below l'
         end) cs
  end.

(** The box around a list of points; there is none around no points. *)
Definition bounding_box (pts : Coords) : option BBox :=
  match pts with
  | [] => None
  | pt :: rest =>
      let x0 := foldr Z.min pt.1 (fst <$> rest) in
      let x1 := foldr Z.max pt.1 (fst <$> rest) in
      let y0 := foldr Z.min pt.2 (snd <$> rest) in
      let y1 := foldr Z.max pt.2 (snd <$> rest) in
      Some (mkBBox x0 y0 (x1 - x0) (y1 - y0))
  end.

(** A rect under a map that is not axis-aligned becomes a polygon. *)
Definition transformed_kind (m : Affine) (k : ShapeType) : ShapeType :=
  match k with
  | TRect => if (Z.eqb (mb m) 0 && Z.eqb (mc m) 0)%bool then TRect else TPolygon
  | _ => k
  end.

Fixpoint transform (m : Affine) (e : SvgObject) : SvgObject :=
  match e with
  | Shape k i c => Shape (transformed_kind m k) i (affine_point m <$> c)
  | Group i cs =>
      Group i
        ((fix each (l : list SvgObject) : list SvgObject :=
            match l with
            | [] => []
            | c :: l' => transform m c :: each l'
            end) cs)
  end.

(** Shapes without points have no bounding box: [getBBox] fails on them.
    Elements carry no transform of their own, so the matrix derived from
    an element is the identity. *)
Global Instance shapes : ElementOps Affine BBox :=
  {| elem_getBBox e := bounding_box (points e);
     fromElement _ _ := affine_identity;
     elem_applyMatrix m e := Some (transform m e) |}.

(** *** A reader for a fragment of JSON

    Literals, integers, strings without escapes, arrays and objects. *)

Definition dquote : Ascii.ascii := Ascii.ascii_of_nat 34.
Definition backslash : Ascii.ascii := Ascii.ascii_of_nat 92.

Definition is_char (c : Ascii.ascii) (s : string) : bool :=
  match s with
  | String d EmptyString => Ascii.eqb c d
  | _ => false
  end.

Definition is_space (c : Ascii.ascii) : bool :=
  let n := Ascii.nat_of_ascii c in
  (Nat.eqb n 32 || Nat.eqb n 10 || Nat.eqb n 13 || Nat.eqb n 9)%bool.

Definition digit_of (c : Ascii.ascii) : option Z :=
  let n := Ascii.nat_of_ascii c in
  if (Nat.leb 48 n && Nat.leb n 57)%bool then Some (Z.of_nat (n - 48))
  else None.

Fixpoint skip_space (s : list Ascii.ascii) : list Ascii.ascii :=
  match s with
  | c :: r => if is_space c then skip_space r else s
  | [] => []
  end.

Fixpoint read_digits (acc : Z) (s : list Ascii.ascii)
    : Z * list Ascii.ascii :=
  match s with
  | c :: r =>
      match digit_of c with
      | Some d => read_digits (10 * acc + d) r
      | None => (acc, s)
      end
  | [] => (acc, [])
  end.

(** The rest of a string literal, after the opening quote. *)
Fixpoint read_string (s : list Ascii.ascii)
    : option (string * list Ascii.ascii) :=
  match s with
  | [] => None
  | c :: r =>
      if Ascii.eqb c dquote then Some (EmptyString, r)
      else if Ascii.eqb c backslash then None
      else match read_string r with
           | Some (t, r') => Some (String c t, r')
           | None => None
           end
  end.

(** [word w v s]: the literal [w] at the head of [s] reads as [v]. *)
Definition word (w : string) (v : Json) (s : list Ascii.ascii)
    : option (Json * list Ascii.ascii) :=
  let cs := String.list_ascii_of_string w in
  if bool_decide (take (length cs) s = cs)
  then Some (v, drop (length cs) s) else None.

Section Sequences.
Variable read_value : list Ascii.ascii → option (Json * list Ascii.ascii).

(** Array items up to the closing bracket. *)
Fixpoint read_items (fuel : nat) (s : list Ascii.ascii)
    : option (list Json * list Ascii.ascii) :=
  match fuel with
  | 0 => None
  | S fuel =>
      match read_value s with
      | None => None
      | Some (v, r) =>
          match skip_space r with
          | c :: r' =>
              if is_char c "," then
                match read_items fuel r' with
                | Some (vs, r'') => Some (v :: vs, r'')
                | None => None
                end
              else if is_char c "]" then Some ([v], r')
              else None
          | [] => None
          end
      end
  end.

(** Object members up to the closing brace. *)
Fixpoint read_members (fuel : nat) (s : list Ascii.ascii)
    : option (list (string * Json) * list Ascii.ascii) :=
  match fuel with
  | 0 => None
  | S fuel =>
      match skip_space s with
      | q :: r =>
          if Ascii.eqb q dquote then
            match read_string r with
            | None => None
            | Some (key, r1) =>
                match skip_space r1 with
                | c :: r2 =>
                    if is_char c ":" then
                      match read_value r2 with
                      | None => None
                      | Some (v, r3) =>
                          match skip_space r3 with
                          | d :: r4 =>
                              if is_char d "," then
                                match read_members fuel r4 with
                                | Some (ms, r5) => Some ((key, v) :: ms, r5)
                                | None => None
                                end
                              else if is_char d "}" then
                                Some ([(key, v)], r4)
                              else None
                          | [] => None
                          end
                      end
                    else None
                | [] => None
                end
            end
          else None
      | [] => None
      end
  end.
End Sequences.

Fixpoint read_value (fuel : nat) (s : list Ascii.ascii)
    : option (Json * list Ascii.ascii) :=
  match fuel with
  | 0 => None
  | S fuel =>
      match skip_space s with
      | [] => None
      | c :: r =>
          if is_char c "n" then word "null" JNull (c :: r)
          else if is_char c "t" then word "true" (JBool true) (c :: r)
          else if is_char c "f" then word "false" (JBool false) (c :: r)
          else if Ascii.eqb c dquote then
            match read_string r with
            | Some (t, r') => Some (JStr t, r')
            | None => None
            end
          else if is_char c "[" then
            match skip_space r with
            | d :: r' =>
                if is_char d "]" then Some (JArr [], r')
                else match read_items (read_value fuel) fuel r with
                     | Some (vs, r'') => Some (JArr vs, r'')
                     | None => None
                     end
            | [] => None
            end
          else if is_char c "{" then
            match skip_space r with
            | d :: r' =>
                if is_char d "}" then Some (JObj [], r')
                else match read_members (read_value fuel) fuel r with
                     | Some (ms, r'') => Some (JObj ms, r'')
                     | None => None
                     end
            | [] => None
            end
          else if is_char c "-" then
            match r with
            | d :: _ =>
                match digit_of d with
                | Some _ =>
                    let '(n, r') := read_digits 0 r in Some (JNum (- n), r')
                | None => None
                end
            | [] => None
            end
          else
            match digit_of c with
            | Some _ =>
                let '(n, r') := read_digits 0 (c :: r) in Some (JNum n, r')
            | None => None
            end
      end
  end.

Definition parse (s : string) : Error + Json :=
  match read_value (S (String.length s)) (String.list_ascii_of_string s) with
  | Some (v, r) =>
      match skip_space r with
      | [] => inr v
      | _ :: _ => inl "SyntaxError: Unexpected token in JSON"
      end
  | None => inl "SyntaxError: Unexpected end of JSON input"
  end.

(** *** From JSON to elements *)

Definition member (key : string) (fields : list (string * Json))
    : option Json :=
  snd <$> List.find (λ kv, String.eqb kv.1 key) fields.

Definition kind_of_name (name : string) : option ShapeType :=
  List.find (λ k, String.eqb (type_name k) name)
    [TRect; TPolygon; TPolyline; TCircle; TEllipse; TLine; TPath].

Definition id_of (fields : list (string * Json)) : option string :=
  match member "id" fields with
  | Some (JStr i) => Some i
  | _ => None
  end.

Fixpoint element_of (fuel : nat) (j : Json) : option SvgObject :=
  match fuel, j with
  | S fuel, JObj fields =>
      match member "type" fields with
      | Some (JStr t) =>
          if String.eqb t "g" then
            match member "childs" fields with
            | Some (JArr items) =>
                Group (id_of fields) <$> mapM (element_of fuel) items
            | _ => Some (Group (id_of fields) [])
            end
          else (λ k, Shape k (id_of fields) []) <$> kind_of_name t
      | _ => None
      end
  | _, _ => None
  end.

Fixpoint depth (j : Json) : nat :=
  match j with
  | JArr items => S (foldr (λ x n, Nat.max (depth x) n) 0 items)
  | JObj fields => S (foldr (λ kv n, Nat.max (depth kv.2) n) 0 fields)
  | _ => 1
  end.

Definition convert (json : Json) : Error + list SvgObject :=
  match json with
  | JObj fields =>
      match member "elements" fields with
      | Some (JArr items) =>
          match mapM (element_of (depth json)) items with
          | Some els => inr els
          | None => inl "unknown element"
          end
      | _ => inl "no elements"
      end
  | _ => inl "no elements"
  end.

(** The converter raises on [null], of which it cannot read a property,
    and calls back on everything else. *)
Global Instance json_world : JsonWorld :=
  {| JSON_parse := parse;
     convertJson json :=
       match json with
       | JNull => Raised "TypeError: Cannot read property 'elements' of null"
       | _ => Delivered (convert json)
       end |}.

(** A file system with two files. *)
Definition quoted (s : string) : string :=
  String dquote s +:+ String dquote EmptyString.

Definition drawing : string :=
  "{" +:+ quoted "elements" +:+ ":[{" +:+ quoted "type" +:+ ":"
  +:+ quoted "rect" +:+ "," +:+ quoted "id" +:+ ":" +:+ quoted "r1"
  +:+ "}]}".

Global Instance two_files : FileSystem :=
  {| fs_readFile path :=
       if String.eqb path "/drawing.json" then inr drawing
       else if String.eqb path "/broken.json" then inr "{"
       else inl "ENOENT: no such file or directory" |}.

(** XML input is not read by the reference implementation. *)
Global Instance no_xml : XmlWorld unit :=
  {| xml2js_parseString _ := Silent;
     convertXml _ := Delivered (inr []) |}.

(** A document of two shapes, and one whose second shape has no points. *)
Definition square : SvgObject :=
  Shape TRect (Some "sq") [(0, 0); (2, 0); (2, 2); (0, 2)]%Z.
Definition segment : SvgObject :=
  Shape TLine (Some "ln") [(1, 0); (5, 3)]%Z.
Definition hollow : SvgObject := Shape TPath (Some "hollow") [].

Definition two_shapes : Svg := mkSvg [square; segment].
Definition with_hollow : Svg := mkSvg [square; hollow].

End Reference.

(** ** Collaborators that raise

    The pipeline above follows the elements through their callbacks.  An
    element can also raise instead of calling back, and it can call back
    before it returns or in a later turn; what the caller of [applyMatrix]
    gets to see depends on both. *)

Inductive Reply (A : Type) :=
  | Now (a : A)          (* calls back with a before it returns *)
  | Later (a : A)        (* returns, and calls back with a in a later turn *)
  | Never                (* returns and never calls back *)
  | Throws (err : Error). (* raises, and never calls back *)
Arguments Now {A} a.
Arguments Later {A} a.
Arguments Never {A}.
Arguments Throws {A} err.

(** The value that a reply hands to the callback, if any. *)
Definition handed {A} (r : Reply A) : option A :=
  match r with
  | Now a | Later a => Some a
  | Never | Throws _ => None
  end.

(** [elem.getBBox(callback)], [Matrix.fromElement(bbox, elem)] and
    [elem.applyMatrix(matrix, callback)]. *)
Class Collaborators (M BBox : Type) := {
  getBBox_reply : SvgObject → Reply BBox;
  own_matrix : BBox → SvgObject → M;
  applyMatrix_reply : M → SvgObject → Reply SvgObject
}.

(** What the callbacks of the pipeline see of such collaborators. *)
Definition collaborator_ops {M BBox : Type} `{Collaborators M BBox}
    : ElementOps M BBox :=
  {| elem_getBBox e := handed (getBBox_reply e);
     fromElement := own_matrix;
     elem_applyMatrix m e := handed (applyMatrix_reply m e) |}.

(** A call of [applyMatrix] as its caller sees it: the pipeline, the
    number of elements that [async.each] has reached, the exception that
    left [applyMatrix], and the exceptions raised in later turns, which
    reach no caller. *)
Record Attempt {M : Type} := mkAttempt {
  pipeline : Pipeline M;
  dispatched : nat;
  escaped : option Error;
  uncaught : list Error
}.
Arguments Attempt : clear implicits.
Arguments mkAttempt {M} pipeline dispatched escaped uncaught.

Section Attempts.
Context {M BBox : Type} `{MatrixLib M} `{Collaborators M BBox}.

#[local] Existing Instance collaborator_ops.

(** The reply that [elem.applyMatrix] gives when the callback of
    [getBBox] for element [i] runs in the state [p]. *)
Definition applyMatrix_answer (i : nat) (p : Pipeline M)
    : option (Reply SvgObject) :=
  match source p !! i, heap p !! base p with
  | Some elem, Some b =>
      match handed (getBBox_reply elem) with
      | Some bbox =>
          Some (applyMatrix_reply (mx_mul b (own_matrix bbox elem)) elem)
      | None => None
      end
  | _, _ => None
  end.

(** The callback of [getBBox] for element [i], run while [applyMatrix] is
    still on the stack ([within_call]) or in a later turn.  It clones and
    composes as [on_bbox] does and calls [elem.applyMatrix]; when that
    calls back at once, [svg.addElement(e); c()] run at once; when it
    raises, nothing catches the exception on its way up. *)
Definition bbox_callback (within_call : bool) (i : nat) (a : Attempt M)
    : Attempt M :=
  match stages (pipeline a) !! i, applyMatrix_answer i (pipeline a) with
  | Some AwaitBBox, Some answer =>
      let p := on_bbox i (pipeline a) in
      match answer with
      | Now _ =>
          mkAttempt (on_applied i p) (dispatched a) (escaped a) (uncaught a)
      | Later _ | Never =>
          mkAttempt p (dispatched a) (escaped a) (uncaught a)
      | Throws err =>
          if within_call
          then mkAttempt p (dispatched a) (Some err) (uncaught a)
          else mkAttempt p (dispatched a) (escaped a) (uncaught a ++ [err])
      end
  | _, _ => a
  end.

(** One round of the loop of [async.each]: the iterator calls
    [elem.getBBox].  An exception ends the loop and leaves [applyMatrix];
    the elements after it are never reached. *)
Definition dispatch (a : Attempt M) (i : nat) : Attempt M :=
  match escaped a with
  | Some _ => a
  | None =>
      match source (pipeline a) !! i with
      | Some elem =>
          let a := mkAttempt (pipeline a) (S i) (escaped a) (uncaught a) in
          match getBBox_reply elem with
          | Now _ => bbox_callback true i a
          | Later _ | Never => a
          | Throws err =>
              mkAttempt (pipeline a) (dispatched a) (Some err) (uncaught a)
          end
      | None => a
      end
  end.

(** [Svg.prototype.applyMatrix] up to its return or to the exception that
    leaves it. *)
Definition attempt_start (matrix : MatrixArg) (this : Svg) (h : list M)
    : Attempt M :=
  foldl dispatch (mkAttempt (applyMatrix_start matrix this h) 0 None [])
    (seq 0 (length (elements this))).

(** A callback that fires in a later turn.  The callback of [getBBox]
    fires only for an element that was reached and answers [Later]; the
    callback of [elem.applyMatrix] fires only where [on_applied] waits for
    it. *)
Definition attempt_step (a : Attempt M) (ev : Event) : Attempt M :=
  match ev with
  | BBoxReady i =>
      if decide (i < dispatched a) then
        match source (pipeline a) !! i with
        | Some elem =>
            match getBBox_reply elem with
            | Later _ => bbox_callback false i a
            | _ => a
            end
        | None => a
        end
      else a
  | Applied i =>
      mkAttempt (on_applied i (pipeline a)) (dispatched a) (escaped a)
        (uncaught a)
  end.

(** [Svg.prototype.applyMatrix] and the later turns of a schedule. *)
Definition attempt (matrix : MatrixArg) (schedule : list Event) (this : Svg)
    (h : list M) : Attempt M :=
  foldl attempt_step (attempt_start matrix this h) schedule.

(** The element [e] raises [err] while [applyMatrix] is on the stack: in
    [getBBox], or in [elem.applyMatrix] called from a callback that
    [getBBox] runs before it returns. *)
Definition raises_within (b : option M) (e : SvgObject) (err : Error)
    : Prop :=
  getBBox_reply e = Throws err
  ∨ ∃ bbox bv,
      getBBox_reply e = Now bbox ∧ b = Some bv
      ∧ applyMatrix_reply (mx_mul bv (own_matrix bbox e)) e = Throws err.
End Attempts.

(** Reference collaborators: shapes answer at once with their bounding
    box, a shape without points raises, and a group without points never
    answers; matrix application answers in a later turn. *)
Module Unruly.

Definition getBBox (e : SvgObject) : Reply Reference.BBox :=
  match Reference.bounding_box (Reference.points e) with
  | Some bbox => Now bbox
  | None =>
      match e with
      | Shape _ _ _ => Throws "TypeError: Cannot read property '0' of undefined"
      | Group _ _ => Never
      end
  end.

Global Instance collaborators
    : Collaborators Reference.Affine Reference.BBox :=
  {| getBBox_reply := getBBox;
     own_matrix _ _ := Reference.affine_identity;
     applyMatrix_reply m e := Later (Reference.transform m e) |}.

Definition empty_group : SvgObject := Group (Some "empty") [].

Definition with_empty_group : Svg := mkSvg [Reference.square; empty_group].

End Unruly.

(** [xml.children] *)
Definition xml_children (xml : XmlNode) : list XmlNode :=
  match xml with
  | XmlElem _ _ cs => cs
  end.


(** ** A reference disk, clock and serialiser *)

Module Fixtures.

(** Nodes are written with their attributes and, when they have
    children, a closing tag. *)
Fixpoint render (xml : XmlNode) : string :=
  match xml with
  | XmlElem name atts cs =>
      "<" +:+ name
      +:+ join ((λ kv, " " +:+ kv.1 +:+ "=" +:+ Reference.quoted kv.2) <$> atts)
      +:+ match cs with
          | [] => "/>"
          | _ :: _ =>
              ">"
              +:+ (fix each (l : list XmlNode) : string :=
                     match l with
                     | [] => EmptyString
                     | c :: l' => render c +:+ each l'
                     end) cs
              +:+ "</" +:+ name +:+ ">"
          end
  end.

Definition id_att (e : SvgObject) : list (string * string) :=
  match elem_id e with
  | Some i => [("id", i)]
  | None => []
  end.

Fixpoint node_of (e : SvgObject) : XmlNode :=
  XmlElem (elem_type e) (id_att e)
    match e with
    | Shape _ _ _ => []
    | Group _ cs =>
        (fix each (l : list SvgObject) : list XmlNode :=
           match l with
           | [] => []
           | c :: l' => node_of c :: each l'
           end) cs
    end.

Fixpoint json_of (e : SvgObject) : Json :=
  JObj (("type", JStr (elem_type e))
        :: match e with
           | Shape _ _ _ => []
           | Group _ cs =>
               [("childs",
                 JArr ((fix each (l : list SvgObject) : list Json :=
                          match l with
                          | [] => []
                          | c :: l' => json_of c :: each l'
                          end) cs))]
           end).

Global Instance serialisers : Serialisers :=
  {| elem_toJSON _ e := json_of e;
     elem_toXml _ e := node_of e;
     xml_toString := render |}.

(** A clock that advances by one millisecond from one reading to the
    next. *)
Global Instance clock : Clock :=
  {| clock_reading n := (1700000000000 + Z.of_nat n)%Z |}.

(** A disk that refuses writes below [/readonly/], and a converter that
    needs its source file to exist and its output to be writable. *)
Global Instance disk : Disk :=
  {| write_error _ path :=
       if String.prefix "/readonly/" path
       then Some "EACCES: permission denied" else None;
     gm_write fs file output :=
       if String.prefix "/readonly/" output
       then inl "gm: unable to open file for writing"
       else match fs !! file with
            | Some text => inr (<[output := "PNG of " +:+ text]> fs)
            | None => inl "gm: unable to open image"
            end |}.

Definition empty_world : World := mkWorld ∅ 0.

End Fixtures.

(** * Properties *)

(** ** Lookups in the element tree *)

Lemma type_name_not_g (k : ShapeType) : String.eqb (type_name k) "g" = false.
Proof. by destruct k. Qed.

Lemma type_is_g_Shape k i c : type_is "g" (Shape k i c) = false.
Proof. apply type_name_not_g. Qed.

Lemma type_is_g_Group i cs : type_is "g" (Group i cs) = true.
Proof. done. Qed.

Lemma type_is_true type e : type_is type e = true ↔ elem_type e = type.
Proof. apply String.eqb_eq. Qed.

Lemma subtree_unfold e : subtree e = e :: descendants e.
Proof.
  by destruct e.
Qed.

Lemma foldl_addElement (l : list SvgObject) (s : Svg) :
  foldl (λ s child, addElement child s) s l = mkSvg (elements s ++ l).
Proof.
  revert s. induction l as [|x l IH]; intros [els]; simpl.
  - by rewrite app_nil_r.
  - rewrite IH. simpl. by rewrite <- app_assoc.
Qed.

Lemma findByType_visit_elements type all svg e :
  findByType_visit type all svg e
  = mkSvg (elements svg ++ found_at type all e).
Proof.
  unfold findByType_visit, found_at. destruct svg as [acc].
  destruct (type_is type e), (all && type_is "g" e);
    simpl; rewrite ?foldl_addElement; simpl;
    by rewrite <- ?app_assoc, ?app_nil_r.
Qed.

Lemma findByType_elements type all this :
  elements (findByType type all this) = elements this ≫= found_at type all.
Proof.
  unfold findByType.
  enough (∀ l acc, foldl (findByType_visit type all) acc l
                   = mkSvg (elements acc ++ (l ≫= found_at type all))) as Hgen.
  { by rewrite Hgen. }
  induction l as [|e l IH]; intros acc; simpl.
  - destruct acc. simpl. by rewrite app_nil_r.
  - rewrite IH, findByType_visit_elements. simpl. by rewrite <- app_assoc.
Qed.

Lemma Group_findByType_childs type (e : SvgObject) :
  group_childs (Group_findByType type true e)
  = filter (λ x, elem_type x = type) (descendants e).
Proof.
  induction e as [k i c|i cs IH] using SvgObject_tree_ind; [done|].
  unfold descendants, preorder. simpl.
  induction IH as [|c cs Hc _ IHcs]; [done|].
  rewrite bind_cons, filter_app, subtree_unfold, filter_cons, IHcs.
  destruct (type_is type c) eqn:Ht.
  - apply type_is_true in Ht. rewrite decide_True by done. simpl. f_equal.
    f_equal. destruct c as [k j c|j cs']; [by rewrite type_is_g_Shape|exact Hc].
  - rewrite decide_False.
    2:{ intros Heq. apply type_is_true in Heq. congruence. }
    simpl. f_equal.
    destruct c as [k j c|j cs']; [by rewrite type_is_g_Shape|exact Hc].
Qed.

Lemma found_at_top type e :
  found_at type false e = filter (λ x, elem_type x = type) [e].
Proof.
  unfold found_at. simpl. rewrite app_nil_r, filter_cons, filter_nil.
  destruct (type_is type e) eqn:Ht.
  - apply type_is_true in Ht. by rewrite decide_True.
  - rewrite decide_False; [done|].
    intros Heq. apply type_is_true in Heq. congruence.
Qed.

Lemma found_at_deep type e :
  found_at type true e = filter (λ x, elem_type x = type) (subtree e).
Proof.
  unfold found_at. rewrite subtree_unfold, filter_cons. simpl.
  assert ((if type_is "g" e
           then group_childs (Group_findByType type true e) else [])
          = filter (λ x, elem_type x = type) (descendants e)) as ->.
  { destruct e as [k i c|i cs]; [by rewrite type_is_g_Shape|].
    rewrite type_is_g_Group. apply Group_findByType_childs. }
  destruct (type_is type e) eqn:Ht.
  - apply type_is_true in Ht. by rewrite decide_True.
  - rewrite decide_False; [done|].
    intros Heq. apply type_is_true in Heq. congruence.
Qed.

Lemma filter_bind_each {A} (P : A → Prop) `{∀ x, Decision (P x)}
    (f g : A → list A) (l : list A) :
  (∀ x, f x = filter P (g x)) → l ≫= f = filter P (l ≫= g).
Proof.
  intros Hfg. induction l as [|x l IH]; [done|].
  by rewrite !bind_cons, filter_app, Hfg, IH.
Qed.

(** C2 (as amended): [findByType(type, false)] returns a new [Svg] holding
    exactly the top-level elements whose type equals [type], in encounter
    order; [findByType(type, true)] returns every element of the whole tree
    whose type equals [type], in document order: each top-level element is
    followed at once by the matches found below it, before the next
    top-level element is looked at. *)
Theorem findByType_document_order (type : string) (this : Svg) :
  elements (findByType type false this)
    = filter (λ e, elem_type e = type) (elements this)
  ∧ elements (findByType type true this)
    = filter (λ e, elem_type e = type) (preorder (elements this)).
Proof.
  rewrite !findByType_elements. split.
  - rewrite (filter_bind_each _ _ (λ x, [x]) _ (found_at_top type)).
    f_equal. induction (elements this) as [|x l IH]; [done|].
    by rewrite bind_cons, IH.
  - apply filter_bind_each, found_at_deep.
Qed.

(** C2 fails as stated: in a document that starts with a group holding a
    rect and goes on with a top-level rect, the rect from inside the group
    comes first. *)
Lemma findByType_group_match_precedes_top_level :
  let inner := Shape TRect (Some "inner") [] in
  let outer := Shape TRect (Some "outer") [] in
  let doc := mkSvg [Group None [inner]; outer] in
  elements (findByType "rect" true doc) = [inner; outer]
  ∧ top_level_first "rect" doc = [outer; inner]
  ∧ elements (findByType "rect" true doc) ≠ top_level_first "rect" doc.
Proof. by vm_compute. Qed.

Lemma findById_snoc id els e :
  findById id (mkSvg (els ++ [e]))
  = findById_visit id (findById id (mkSvg els)) e.
Proof. unfold findById. simpl. by rewrite foldl_app. Qed.

(** Whatever was found before it, a trailing group that does not carry
    the id itself decides the answer alone. *)
Lemma findById_trailing_group id els gid cs :
  gid ≠ Some id →
  findById id (mkSvg (els ++ [Group gid cs]))
  = Group_findById id (Group gid cs).
Proof.
  intros Hne. rewrite findById_snoc. unfold findById_visit, id_is. simpl.
  destruct gid as [j|]; [|done].
  destruct (String.eqb j id) eqn:Hj; [|done].
  apply String.eqb_eq in Hj. congruence.
Qed.

(** C1 (the code departs from it): in a document with unique ids, the
    top-level rect with id ["a"] is followed by a group that does not
    contain that id; the group's answer replaces the rect that was already
    found, and [findById("a")] returns [null]. *)
Theorem findById_match_lost_after_group :
  let target := Shape TRect (Some "a") [] in
  let doc := mkSvg [target; Group (Some "b") [Shape TCircle (Some "c") []]] in
  unique_ids doc
  ∧ target ∈ preorder (elements doc)
  ∧ elem_id target = Some "a"
  ∧ findById "a" doc = None.
Proof.
  cbv zeta. split_and!; [|by left|done|done].
  unfold unique_ids. by apply (bool_decide_unpack _).
Qed.

(** ** Serialisation *)

Section SerialisationFacts.
Context `{Serialisers}.

Lemma toJSON_elements matrix this :
  toJSON matrix this
  = mkDocumentJSON (elem_toJSON (matrix_flag matrix) <$> elements this).
Proof.
  unfold toJSON.
  enough (∀ l acc,
    foldl (λ json element,
        mkDocumentJSON
          (json_elements json ++ [elem_toJSON (matrix_flag matrix) element]))
      acc l
    = mkDocumentJSON
        (json_elements acc ++ (elem_toJSON (matrix_flag matrix) <$> l)))
    as Hgen.
  { by rewrite Hgen. }
  induction l as [|e l IH]; intros [acc]; simpl.
  - by rewrite app_nil_r.
  - rewrite IH. simpl. by rewrite <- app_assoc.
Qed.

(** C7: [toJSON] maps over the owned sequence in order: the result is
    the object [{ elements : [...] }] whose array holds the JSON of each
    element at the position of that element; after
    [setElements([a,b,c])] it is [[a.toJSON(), b.toJSON(), c.toJSON()]]. *)
Theorem toJSON_preserves_order (matrix : option bool)
    (els : list SvgObject) (a b c : SvgObject) (this : Svg) :
  toJSON matrix (setElements els this)
    = mkDocumentJSON (elem_toJSON (matrix_flag matrix) <$> els)
  ∧ json_elements (toJSON None (setElements [a; b; c] this))
    = [elem_toJSON false a; elem_toJSON false b; elem_toJSON false c].
Proof. by rewrite !toJSON_elements. Qed.

Lemma toXml_children matrix this :
  toXml matrix this
  = XmlElem "svg"
      [("version", "1.1"); ("xmlns", "http://www.w3.org/2000/svg")]
      (elem_toXml (matrix_flag matrix) <$> elements this).
Proof.
  unfold toXml. simpl.
  enough (∀ l n atts cs,
    foldl (λ xml element,
        xml_import (elem_toXml (matrix_flag matrix) element) xml)
      (XmlElem n atts cs) l
    = XmlElem n atts (cs ++ (elem_toXml (matrix_flag matrix) <$> l)))
    as Hgen.
  { by rewrite Hgen. }
  induction l as [|e l IH]; intros n atts cs; simpl.
  - by rewrite app_nil_r.
  - rewrite IH. by rewrite <- app_assoc.
Qed.

Lemma append_assoc (s t u : string) : (s +:+ t) +:+ u = s +:+ (t +:+ u).
Proof.
  induction s as [|ch s IH]; [done|].
  change (String ch ((s +:+ t) +:+ u) = String ch (s +:+ (t +:+ u))).
  by rewrite IH.
Qed.

Lemma append_empty_r (s : string) : s +:+ EmptyString = s.
Proof.
  induction s as [|ch s IH]; [done|].
  change (String ch (s +:+ EmptyString) = String ch s). by rewrite IH.
Qed.

Lemma foldl_append {A} (f : A → string) (l : list A) (acc : string) :
  foldl (λ string x, string +:+ f x) acc l = acc +:+ join (f <$> l).
Proof.
  revert acc. induction l as [|x l IH]; intros acc; simpl.
  - by rewrite append_empty_r.
  - by rewrite IH, append_assoc.
Qed.

(** C8: [toString(true)] is the text of the whole [<svg>] node built by
    [toXml], whose children are the nodes of the elements in order;
    [toString(false)] is the texts of the elements' own nodes joined in
    order, with no enclosing node ever built. *)
Theorem toString_wrapped_or_joined (matrix : option bool) (this : Svg) :
  toString true matrix this = xml_toString (toXml matrix this)
  ∧ toXml matrix this
    = XmlElem "svg"
        [("version", "1.1"); ("xmlns", "http://www.w3.org/2000/svg")]
        (elem_toXml (matrix_flag matrix) <$> elements this)
  ∧ toString false matrix this
    = join ((λ e, xml_toString (elem_toXml (matrix_flag matrix) e))
              <$> elements this).
Proof.
  split_and!.
  - by destruct matrix.
  - apply toXml_children.
  - unfold toString. by rewrite foldl_append.
Qed.
End SerialisationFacts.

(** ** The matrix store *)

Section PipelineFacts.
Context {M BBox : Type} `{MatrixLib M} `{ElementOps M BBox}.

Implicit Types (p : Pipeline M) (h : list M) (i : nat).

Lemma Matrix_add_length this mat h :
  length (Matrix_add this mat h) = length h.
Proof.
  unfold Matrix_add. repeat case_match; try done.
  apply length_insert.
Qed.

(** [add] on an object allocated after [h] leaves [h] as it is. *)
Lemma Matrix_add_fresh this mat h k :
  length h ≤ this →
  ∃ k', Matrix_add this mat (h ++ k) = h ++ k' ∧ length k' = length k.
Proof.
  intros Hle. unfold Matrix_add.
  repeat case_match; try by exists k.
  rewrite insert_app_r_alt by done. eexists. split; [done|].
  apply length_insert.
Qed.

Lemma base_matrix_grows matrix h :
  ∃ v, (base_matrix matrix h).2 = h ++ [v].
Proof.
  unfold base_matrix, Matrix_new.
  destruct matrix as [|mats|mat]; simpl; [by eexists| |by eexists].
  generalize (mx_identity (M:=M)). induction mats as [|m mats IH]; intros v.
  - by eexists.
  - simpl.
    destruct (Matrix_add_fresh (length h) m h [v]) as ([|w [|]] & -> & Hk);
      done.
Qed.

Lemma base_matrix_NoMatrix h :
  base_matrix NoMatrix h = (length h, h ++ [mx_identity]).
Proof. done. Qed.

(** The value of the base matrix built from a two-element array. *)
Lemma base_matrix_pair h r1 r2 v1 v2 :
  h !! r1 = Some v1 → h !! r2 = Some v2 →
  base_matrix (MatrixArray [r1; r2]) h
  = (length h, h ++ [mx_mul (mx_mul mx_identity v1) v2]).
Proof.
  intros H1 H2. unfold base_matrix, Matrix_new. simpl. f_equal.
  assert (∀ v r w, h !! r = Some w →
    Matrix_add (length h) r (h ++ [v]) = h ++ [mx_mul v w]) as Hadd.
  { intros v r w Hr. unfold Matrix_add.
    rewrite lookup_app_r, Nat.sub_diag by done. simpl.
    rewrite lookup_app_l by (by eapply lookup_lt_Some). rewrite Hr.
    rewrite insert_app_r_alt, Nat.sub_diag by done. done. }
  by rewrite (Hadd _ _ _ H1), (Hadd _ _ _ H2).
Qed.

(** ** One step of the pipeline *)

Lemma on_bbox_unfold i p :
  on_bbox i p =
  match stages p !! i, source p !! i with
  | Some AwaitBBox, Some elem =>
      match elem_getBBox elem, heap p !! base p with
      | Some bbox, Some b =>
          let own := fromElement bbox elem in
          {| heap := heap p ++ [mx_mul b own; own];
             base := base p;
             source := source p;
             stages :=
               <[i := AwaitApply (elem_applyMatrix (mx_mul b own) elem)]>
                 (stages p);
             svg := svg p;
             completed := completed p;
             calls := calls p;
             composed := composed p ++ [length (heap p)];
             finished := finished p |}
      | _, _ => p
      end
  | _, _ => p
  end.
Proof.
  unfold on_bbox.
  destruct (stages p !! i) as [[| |]|]; try done.
  destruct (source p !! i) as [elem|]; try done.
  destruct (elem_getBBox elem) as [bbox|]; try done.
  unfold Matrix_clone. destruct (heap p !! base p) as [b|]; try done.
  unfold Matrix_add. rewrite length_app. simpl.
  replace ((heap p ++ [b]) ++ [fromElement bbox elem])
    with (heap p ++ [b; fromElement bbox elem]) by by rewrite <- app_assoc.
  rewrite (lookup_app_r (heap p) _ (length (heap p))) by done.
  rewrite (lookup_app_r (heap p) _ (length (heap p) + 1)) by lia.
  rewrite Nat.sub_diag.
  replace (length (heap p) + 1 - length (heap p)) with 1 by lia. simpl.
  rewrite insert_app_r_alt, Nat.sub_diag by done. simpl.
  rewrite lookup_app_r, Nat.sub_diag by done. done.
Qed.

(** Case analysis on whether a callback finds its element in the stage
    that lets it act; the cases in which it does nothing are closed. *)
Ltac on_bbox_cases p i :=
  rewrite on_bbox_unfold;
  destruct (stages p !! i) as [[| |]|]; try done;
  destruct (source p !! i) as [?elem|]; try done;
  destruct (elem_getBBox _) as [?bbox|]; try done;
  destruct (heap p !! base p) as [?b|]; try done.

Ltac on_applied_cases p i :=
  unfold on_applied;
  destruct (stages p !! i) as [[|[?e|]|]|]; try done.

Lemma step_heap_grows p ev : heap p `prefix_of` heap (step p ev).
Proof.
  destruct ev as [i|i]; simpl.
  - on_bbox_cases p i. simpl. by eexists.
  - on_applied_cases p i.
Qed.

Lemma run_heap_grows schedule p : heap p `prefix_of` heap (run schedule p).
Proof.
  revert p. induction schedule as [|ev sch IH]; intros p; [done|].
  simpl. etrans; [apply step_heap_grows|apply IH].
Qed.

Lemma step_base p ev : base (step p ev) = base p.
Proof.
  destruct ev as [i|i]; simpl.
  - on_bbox_cases p i.
  - on_applied_cases p i.
Qed.

Lemma run_base schedule p : base (run schedule p) = base p.
Proof.
  revert p. induction schedule as [|ev sch IH]; intros p; [done|].
  simpl. by rewrite IH, step_base.
Qed.
End PipelineFacts.

(** ** The invariant of a running pipeline *)

Lemma bounded_NoDup_length (l : list nat) (n : nat) :
  NoDup l → (∀ x, x ∈ l → x < n) → length l ≤ n.
Proof.
  intros Hnd Hlt. rewrite <- (length_seq n 0).
  apply submseteq_length, NoDup_submseteq; [done|].
  intros x Hx. apply elem_of_seq. specialize (Hlt x Hx). lia.
Qed.

Lemma bounded_NoDup_full (l : list nat) (n : nat) :
  NoDup l → (∀ x, x ∈ l → x < n) → length l = n → l ≡ₚ seq 0 n.
Proof.
  intros Hnd Hlt Hlen. apply submseteq_length_Permutation.
  - apply NoDup_submseteq; [done|].
    intros x Hx. apply elem_of_seq. specialize (Hlt x Hx). lia.
  - rewrite length_seq. lia.
Qed.

Lemma lookup_bind_seq {A B} (f : A → option B) (l : list A) :
  (λ i, l !! i ≫= f) <$> seq 0 (length l) = f <$> l.
Proof.
  induction l as [|x l IH] using rev_ind; [done|].
  rewrite length_app, Nat.add_1_r, seq_S, !fmap_app. simpl.
  rewrite lookup_app_r, Nat.sub_diag by done. simpl. f_equal.
  rewrite <- IH. apply list_fmap_ext. intros i j Hj.
  apply lookup_seq in Hj as [-> Hlt]. by rewrite lookup_app_l.
Qed.

Section PipelineInvariant.
Context {M BBox : Type} `{MatrixLib M} `{ElementOps M BBox}.

Implicit Types (p : Pipeline M) (h : list M) (i : nat).

Lemma consistent_finished_lt h0 b els p i :
  consistent h0 b els p → i ∈ finished p → i < length els.
Proof.
  intros Hc Hi. rewrite <- (c_stages_len _ _ _ _ Hc).
  eapply lookup_lt_Some, c_finished_stage; eauto.
Qed.

Lemma consistent_start matrix this h :
  let p := applyMatrix_start matrix this h in
  consistent (heap p) (base_value p) (elements this) p.
Proof.
  unfold applyMatrix_start. destruct (base_matrix matrix h) as [r h0].
  simpl. split; simpl; try done.
  - by rewrite length_replicate.
  - intros i st [-> _]%lookup_replicate. apply not_elem_of_nil.
  - apply NoDup_nil_2.
  - intros i Hi. by apply elem_of_nil in Hi.
  - destruct (elements this); by repeat case_decide.
  - apply NoDup_nil_2.
Qed.

Lemma consistent_on_bbox h0 b els p i :
  consistent h0 b els p → consistent h0 b els (on_bbox i p).
Proof.
  intros Hc. rewrite on_bbox_unfold.
  destruct (stages p !! i) as [[| |]|] eqn:Hst; try done.
  destruct (source p !! i) as [elem|] eqn:Hel; try done.
  destruct (elem_getBBox elem) as [bbox|] eqn:Hbb; try done.
  destruct (heap p !! base p) as [bv|] eqn:Hbv; try done.
  assert (b = Some bv) as -> by (by rewrite <- (c_base _ _ _ _ Hc)).
  pose proof (c_stage _ _ _ _ Hc i _ Hst) as Hnotfin. simpl in Hnotfin.
  destruct Hc as [Hsrc Hheap Hbase Hlen Hstage Hnd Hfin Hsvg Hcomp Hcalls
                    Hcnd Hcfresh].
  split; simpl; try done.
  - etrans; [done|]. by eexists.
  - apply lookup_app_l_Some. done.
  - by rewrite length_insert.
  - intros j st Hj. destruct (decide (i = j)) as [<-|Hne].
    + rewrite list_lookup_insert_eq in Hj by (by eapply lookup_lt_Some).
      injection Hj as <-. split; [done|].
      rewrite <- Hsrc, Hel. simpl. unfold transformed. by rewrite Hbb.
    + rewrite list_lookup_insert_ne in Hj by done. by apply Hstage.
  - intros j Hj. rewrite list_lookup_insert_ne; [by apply Hfin|].
    by intros <-.
  - apply NoDup_app. split_and!; [done| |apply NoDup_singleton].
    intros r Hr ->%list_elem_of_singleton.
    rewrite Forall_forall in Hcfresh. apply Hcfresh in Hr. lia.
  - apply Forall_app. split.
    + eapply Forall_impl; [done|]. simpl. intros r (? & ? & ?).
      rewrite length_app. simpl. lia.
    + apply Forall_singleton. apply prefix_length in Hheap.
      apply lookup_lt_Some in Hbv. rewrite length_app. simpl. lia.
Qed.

Lemma consistent_on_applied h0 b els p i :
  consistent h0 b els p → consistent h0 b els (on_applied i p).
Proof.
  intros Hc. unfold on_applied.
  destruct (stages p !! i) as [[|[e|]|]|] eqn:Hst; try done.
  pose proof (c_stage _ _ _ _ Hc i _ Hst) as [Hnotfin He]. simpl in *.
  assert (length (finished p ++ [i]) ≤ length els) as Hroom.
  { apply bounded_NoDup_length.
    - apply NoDup_app. split_and!; [by destruct Hc| |apply NoDup_singleton].
      by intros j Hj ->%list_elem_of_singleton.
    - intros j [Hj|Heq%list_elem_of_singleton]%elem_of_app.
      + by eapply consistent_finished_lt.
      + subst j. rewrite <- (c_stages_len _ _ _ _ Hc).
        by eapply lookup_lt_Some. }
  rewrite length_app in Hroom. simpl in Hroom.
  destruct Hc as [Hsrc Hheap Hbase Hlen Hstage Hnd Hfin Hsvg Hcomp Hcalls
                    Hcnd Hcfresh].
  split; simpl; try done.
  - by rewrite length_insert.
  - intros j st Hj. destruct (decide (i = j)) as [<-|Hne].
    + rewrite list_lookup_insert_eq in Hj by (by eapply lookup_lt_Some).
      injection Hj as <-. apply elem_of_app. right. by left.
    + rewrite list_lookup_insert_ne in Hj by done.
      specialize (Hstage j st Hj). destruct st as [|r|].
      * intros [?|Heq%list_elem_of_singleton]%elem_of_app; done.
      * destruct Hstage as [Hnf ->]. split; [|done].
        intros [?|Heq%list_elem_of_singleton]%elem_of_app; done.
      * apply elem_of_app. by left.
  - apply NoDup_app. split_and!; [done| |apply NoDup_singleton].
    by intros j Hj ->%list_elem_of_singleton.
  - intros j [Hj|Heq%list_elem_of_singleton]%elem_of_app.
    + rewrite list_lookup_insert_ne; [by apply Hfin|].
      intros <-. done.
    + subst j. apply list_lookup_insert_eq. by eapply lookup_lt_Some.
  - rewrite !fmap_app, Hsvg. simpl. by rewrite He.
  - rewrite length_app. simpl. lia.
  - rewrite Hcalls, Hcomp, Hsrc, length_app. simpl.
    rewrite (decide_False (P := length (finished p) = length els)) by lia.
    repeat case_decide; try done; lia.
Qed.

Lemma consistent_step h0 b els p ev :
  consistent h0 b els p → consistent h0 b els (step p ev).
Proof.
  destruct ev; [apply consistent_on_bbox|apply consistent_on_applied].
Qed.

Lemma consistent_run h0 b els schedule p :
  consistent h0 b els p → consistent h0 b els (run schedule p).
Proof.
  revert p. induction schedule as [|ev sch IH]; intros p Hc; [done|].
  simpl. by apply IH, consistent_step.
Qed.

Lemma consistent_applyMatrix matrix schedule this h :
  let p0 := applyMatrix_start matrix this h in
  consistent (heap p0) (base_value p0) (elements this)
    (applyMatrix matrix schedule this h).
Proof. apply consistent_run, consistent_start. Qed.
End PipelineInvariant.

(** ** What [applyMatrix] hands to its callback *)

Section PipelineResults.
Context {M BBox : Type} `{MatrixLib M} `{ElementOps M BBox}.

Implicit Types (p : Pipeline M) (h : list M) (i : nat).

Lemma chain_None (b : M) (e : SvgObject) :
  chain (Some b) e = None ↔
  elem_getBBox e = None
  ∨ ∃ bbox, elem_getBBox e = Some bbox
      ∧ elem_applyMatrix (mx_mul b (fromElement bbox e)) e = None.
Proof.
  unfold chain, transformed. destruct (elem_getBBox e) as [bbox|].
  - split; [intros Hn; right; by exists bbox|].
    intros [?|(bbox' & [= <-] & Hn)]; done.
  - split; [by left|done].
Qed.

(** Once the callback has run, every element has completed. *)
Lemma consistent_called h0 b els p inv :
  consistent h0 b els p → inv ∈ calls p →
  inv = [ArgSvg (svg p)] ∧ finished p ≡ₚ seq 0 (length els).
Proof.
  intros Hc Hinv. rewrite (c_calls _ _ _ _ Hc) in Hinv.
  case_decide as Hfull; [|by apply elem_of_nil in Hinv].
  apply list_elem_of_singleton in Hinv. split; [done|].
  apply bounded_NoDup_full; [by destruct Hc| |done].
  intros i Hi. by eapply consistent_finished_lt.
Qed.

Lemma consistent_svg_length h0 b els p :
  consistent h0 b els p → length (elements (svg p)) = length (finished p).
Proof.
  intros Hc. rewrite <- (length_fmap Some), (c_svg _ _ _ _ Hc).
  by rewrite length_fmap.
Qed.

Lemma consistent_finished_chain h0 b els p i e :
  consistent h0 b els p → i ∈ finished p → els !! i = Some e →
  is_Some (chain b e).
Proof.
  intros Hc Hi He.
  assert ((els !! i ≫= chain b) ∈ Some <$> elements (svg p)) as Hin.
  { rewrite (c_svg _ _ _ _ Hc).
    by apply (list_elem_of_fmap_2 (λ i, els !! i ≫= chain b)). }
  apply list_elem_of_fmap in Hin as (e' & Heq & _).
  rewrite He in Heq. simpl in Heq. by rewrite Heq.
Qed.

(** A document that reaches the callback holds one output per element of
    the source. *)
Lemma consistent_complete_document h0 b els p inv :
  consistent h0 b els p → inv ∈ calls p →
  ∃ doc, inv = [ArgSvg doc] ∧ Some <$> elements doc ≡ₚ chain b <$> els.
Proof.
  intros Hc Hinv. destruct (consistent_called _ _ _ _ _ Hc Hinv) as [-> Hperm].
  exists (svg p). split; [done|].
  rewrite (c_svg _ _ _ _ Hc), Hperm. by rewrite lookup_bind_seq.
Qed.

(** With an element whose chain does not deliver, the callback never
    runs. *)
Lemma consistent_failing_no_call h0 b els p :
  consistent h0 b els p → (∃ e, e ∈ els ∧ chain b e = None) → calls p = [].
Proof.
  intros Hc (e & [i Hi]%list_elem_of_lookup & Hfail).
  destruct (calls p) as [|inv rest] eqn:Hcalls; [done|]. exfalso.
  assert (inv ∈ calls p) as Hinv by (rewrite Hcalls; by left).
  destruct (consistent_called _ _ _ _ _ Hc Hinv) as [_ Hperm].
  assert (i ∈ finished p) as Hfin.
  { rewrite Hperm. apply elem_of_seq. apply lookup_lt_Some in Hi. lia. }
  destruct (consistent_finished_chain _ _ _ _ _ _ Hc Hfin Hi) as [e' He'].
  congruence.
Qed.

Lemma on_bbox_stages_ne i j p : i ≠ j → stages (on_bbox i p) !! j = stages p !! j.
Proof.
  intros Hne. rewrite on_bbox_unfold.
  destruct (stages p !! i) as [[| |]|]; try done.
  destruct (source p !! i) as [elem|]; try done.
  destruct (elem_getBBox elem) as [bbox|]; try done.
  destruct (heap p !! base p) as [b|]; try done.
  simpl. by apply list_lookup_insert_ne.
Qed.

Lemma on_applied_stages_ne i j p :
  i ≠ j → stages (on_applied i p) !! j = stages p !! j.
Proof.
  intros Hne. unfold on_applied.
  destruct (stages p !! i) as [[|[e|]|]|]; try done.
  simpl. by apply list_lookup_insert_ne.
Qed.

Lemma run_app (s1 s2 : list Event) p : run (s1 ++ s2) p = run s2 (run s1 p).
Proof. apply foldl_app. Qed.

Lemma immediate_S (n : nat) :
  immediate (S n) = immediate n ++ [BBoxReady n; Applied n].
Proof. unfold immediate. by rewrite seq_S, bind_app. Qed.

(** When the collaborators answer at once and no chain fails, the first
    [k] elements complete one after the other, in the order of the
    source. *)
Lemma immediate_prefix h0 b els p0 k :
  consistent h0 b els p0 →
  stages p0 = replicate (length els) AwaitBBox → finished p0 = [] →
  (∀ e, e ∈ els → is_Some (chain b e)) → k ≤ length els →
  finished (run (immediate k) p0) = seq 0 k
  ∧ stages (run (immediate k) p0)
    = replicate k Finished ++ replicate (length els - k) AwaitBBox.
Proof.
  intros Hc0 Hst0 Hfin0 Hok. induction k as [|k IH]; intros Hk.
  { simpl. by rewrite Nat.sub_0_r. }
  destruct IH as [Hfin Hst]; [lia|].
  rewrite immediate_S, run_app, seq_S, replicate_S_end.
  pose proof (consistent_run _ _ _ (immediate k) _ Hc0) as Hc.
  set (p := run (immediate k) p0) in *.
  destruct (lookup_lt_is_Some_2 els k) as [e He]; [lia|].
  destruct (Hok e) as [e' He']; [by eapply list_elem_of_lookup_2|].
  destruct b as [bv|]; [|done]. simpl in He'. unfold transformed in He'.
  destruct (elem_getBBox e) as [bbox|] eqn:Hbb; [|done].
  assert (replicate (length els - k) AwaitBBox
          = AwaitBBox :: replicate (length els - S k) AwaitBBox) as Hrest.
  { replace (length els - k) with (S (length els - S k)) by lia. done. }
  assert (stages p !! k = Some AwaitBBox) as Hstk.
  { rewrite Hst, lookup_app_r, length_replicate, Nat.sub_diag, Hrest;
      rewrite ?length_replicate; done. }
  simpl. rewrite on_bbox_unfold, Hstk, (c_source _ _ _ _ Hc), He, Hbb,
    (c_base _ _ _ _ Hc).
  unfold on_applied. simpl.
  rewrite list_lookup_insert_eq by (by eapply lookup_lt_Some).
  rewrite He'. simpl. split.
  - by rewrite Hfin.
  - rewrite list_insert_insert_eq, Hst, Hrest.
    rewrite insert_app_r_alt, length_replicate, Nat.sub_diag
      by (by rewrite length_replicate).
    simpl. by rewrite <- app_assoc.
Qed.

Lemma mapM_fmap_Some {A B} (f : A → option B) (l : list A) (k : list B) :
  mapM f l = Some k → f <$> l = Some <$> k.
Proof.
  intros Hm%mapM_Some. induction Hm as [|x y l k Hxy _ IH]; [done|].
  rewrite !fmap_cons. by rewrite Hxy, IH.
Qed.

Lemma applyMatrix_immediate matrix this h outs :
  mapM (chain (base_value (applyMatrix_start matrix this h))) (elements this)
    = Some outs →
  calls (applyMatrix matrix (immediate (length (elements this))) this h)
  = [[ArgSvg (mkSvg outs)]].
Proof.
  intros Hm.
  pose proof (consistent_start matrix this h) as Hc0. simpl in Hc0.
  pose proof (consistent_applyMatrix matrix
                (immediate (length (elements this))) this h) as Hc.
  simpl in Hc.
  destruct (immediate_prefix _ _ _ _ (length (elements this)) Hc0)
    as [Hfin _]; try done.
  { unfold applyMatrix_start. by destruct (base_matrix matrix h). }
  { unfold applyMatrix_start. by destruct (base_matrix matrix h). }
  { intros e He. apply mk_is_Some, mapM_is_Some in Hm.
    rewrite Forall_forall in Hm. by apply Hm. }
  fold (applyMatrix matrix (immediate (length (elements this))) this h)
    in Hfin.
  rewrite (c_calls _ _ _ _ Hc), Hfin, length_seq, decide_True by done.
  pose proof (c_svg _ _ _ _ Hc) as Hsvg.
  rewrite Hfin, lookup_bind_seq, (mapM_fmap_Some _ _ _ Hm) in Hsvg.
  apply (inj (fmap Some)) in Hsvg.
  destruct (svg _) as [els']. simpl in Hsvg. by subst.
Qed.

(** C4: when [applyMatrix] runs its callback, every element of the
    source has completed exactly once, the document holds the outputs of
    the elements in the order in which their chains completed, and so
    holds exactly one output per input, in an order that the schedule
    decides and the input order does not.  The callback does run: when no
    chain fails and the collaborators answer at once, it is handed the
    outputs, which then stand in the order of the source. *)
Theorem applyMatrix_completion_order (matrix : MatrixArg)
    (this : Svg) (h : list M) :
  let b := base_value (applyMatrix_start matrix this h) in
  (∀ (schedule : list Event) (doc : Svg),
     let p := applyMatrix matrix schedule this h in
     [ArgSvg doc] ∈ calls p →
     finished p ≡ₚ seq 0 (length (elements this))
     ∧ Some <$> elements doc
       = (λ i, elements this !! i ≫= chain b) <$> finished p
     ∧ Some <$> elements doc ≡ₚ chain b <$> elements this)
  ∧ (∀ outs : list SvgObject,
       mapM (chain b) (elements this) = Some outs →
       calls (applyMatrix matrix (immediate (length (elements this))) this h)
       = [[ArgSvg (mkSvg outs)]]).
Proof.
  intros b. split; [|apply applyMatrix_immediate].
  intros schedule doc p Hinv.
  pose proof (consistent_applyMatrix matrix schedule this h) as Hc.
  simpl in Hc. fold p b in Hc.
  destruct (consistent_called _ _ _ _ _ Hc Hinv) as [[= ->] Hperm].
  split_and!; [done|by destruct Hc|].
  rewrite (c_svg _ _ _ _ Hc), Hperm. by rewrite lookup_bind_seq.
Qed.

Lemma clone_of_grows bv els hp k i r :
  clone_of bv els hp i r → clone_of bv els (hp ++ k) i r.
Proof.
  intros (e & bbox & He & Hbb & Hr & Hr'). exists e, bbox.
  split_and!; [done|done| |]; by apply lookup_app_l_Some.
Qed.

Lemma cloned_start matrix this h bv :
  cloned_per_element bv (elements this) (applyMatrix_start matrix this h).
Proof.
  exists []. unfold applyMatrix_start. destruct (base_matrix matrix h).
  simpl. split_and!; [apply NoDup_nil_2| |constructor].
  intros i. split; [by intros ?%elem_of_nil|].
  by intros (st & [-> _]%lookup_replicate & Hne).
Qed.

Lemma cloned_on_bbox h0 bv els p i :
  consistent h0 (Some bv) els p →
  cloned_per_element bv els p → cloned_per_element bv els (on_bbox i p).
Proof.
  intros Hc (order & Hnd & Hiff & Hall). rewrite on_bbox_unfold.
  destruct (stages p !! i) as [[| |]|] eqn:Hst; try by exists order.
  destruct (source p !! i) as [elem|] eqn:Hel; try by exists order.
  destruct (elem_getBBox elem) as [bbox|] eqn:Hbb; try by exists order.
  destruct (heap p !! base p) as [b|] eqn:Hb; try by exists order.
  assert (b = bv) as ->.
  { rewrite (c_base _ _ _ _ Hc) in Hb. by injection Hb. }
  rewrite (c_source _ _ _ _ Hc) in Hel.
  assert (i ∉ order) as Hnew.
  { intros (st & Hst' & Hne)%Hiff. congruence. }
  exists (order ++ [i]). simpl. split_and!.
  - apply NoDup_app. split_and!; [done| |apply NoDup_singleton].
    by intros j Hj ->%list_elem_of_singleton.
  - intros j. rewrite elem_of_app, list_elem_of_singleton.
    destruct (decide (i = j)) as [<-|Hne].
    + rewrite list_lookup_insert_eq by (by eapply lookup_lt_Some).
      split; [by eexists|by right].
    + rewrite list_lookup_insert_ne by done. rewrite Hiff.
      split; [|by left]. by intros [?| ->].
  - apply Forall2_app.
    + eapply Forall2_impl; [done|]. intros j r. apply clone_of_grows.
    + constructor; [|constructor]. exists elem, bbox.
      split_and!; [done|done| |].
      * by rewrite lookup_app_r, Nat.sub_diag.
      * rewrite lookup_app_r by lia.
        by replace (S (length (heap p)) - length (heap p)) with 1 by lia.
Qed.

Lemma cloned_on_applied bv els p i :
  cloned_per_element bv els p → cloned_per_element bv els (on_applied i p).
Proof.
  intros (order & Hnd & Hiff & Hall). unfold on_applied.
  destruct (stages p !! i) as [[|[e|]|]|] eqn:Hst; try by exists order.
  exists order. simpl. split_and!; [done| |done].
  intros j. rewrite Hiff. destruct (decide (i = j)) as [<-|Hne].
  - rewrite list_lookup_insert_eq by (by eapply lookup_lt_Some).
    split; intros _; by eexists.
  - by rewrite list_lookup_insert_ne.
Qed.

Lemma cloned_run h0 bv els schedule p :
  consistent h0 (Some bv) els p →
  cloned_per_element bv els p → cloned_per_element bv els (run schedule p).
Proof.
  revert p. induction schedule as [|ev sch IH]; intros p Hc Hcl; [done|].
  simpl. apply IH; [by apply consistent_step|].
  destruct ev; [by eapply cloned_on_bbox|by apply cloned_on_applied].
Qed.

(** When no chain fails and the collaborators answer at once, there are
    as many receivers as elements. *)
Lemma immediate_composed matrix this h outs :
  mapM (chain (base_value (applyMatrix_start matrix this h))) (elements this)
    = Some outs →
  length (composed (applyMatrix matrix (immediate (length (elements this)))
                      this h))
  = length (elements this).
Proof.
  intros Hm.
  pose proof (consistent_start matrix this h) as Hc0. simpl in Hc0.
  destruct (base_value (applyMatrix_start matrix this h)) as [bv|] eqn:Hb.
  - destruct (immediate_prefix _ _ _ _ (length (elements this)) Hc0)
      as [_ Hst]; try done.
    { unfold applyMatrix_start. by destruct (base_matrix matrix h). }
    { unfold applyMatrix_start. by destruct (base_matrix matrix h). }
    { intros e He. apply mk_is_Some, mapM_is_Some in Hm.
      rewrite Forall_forall in Hm. by apply Hm. }
    rewrite Nat.sub_diag, app_nil_r in Hst.
    destruct (cloned_run _ bv _ (immediate (length (elements this))) _ Hc0
                (cloned_start matrix this h bv)) as (order & Hnd & Hiff & Hall).
    fold (applyMatrix matrix (immediate (length (elements this))) this h)
      in Hst, Hiff, Hall.
    rewrite <- (Forall2_length _ _ _ Hall).
    etrans; [|apply (length_seq (length (elements this)) 0)].
    apply Permutation_length, NoDup_Permutation; [done|apply NoDup_seq|].
    intros i. rewrite Hiff, Hst, elem_of_seq. split.
    + intros (st & Hi%lookup_lt_Some & _). rewrite length_replicate in Hi. lia.
    + intros [_ Hi]. exists Finished. split; [|done].
      apply lookup_replicate_2. lia.
  - destruct (elements this) as [|e els] eqn:Hels.
    + unfold applyMatrix, applyMatrix_start. rewrite Hels.
      by destruct (base_matrix matrix h).
    + by simpl in Hm.
Qed.

(** C5: for every element whose bounding box has arrived, and for no
    other, the base matrix has been cloned and the matrix derived from
    that element composed onto the clone: the receivers of the
    compositions are as many distinct objects as there are such elements,
    each allocated by the pipeline after the base matrix, and each holds
    the value of the base composed with the matrix of its element, which
    is the matrix the element is then applied.  The objects that existed
    before the call, the caller's matrices among them, keep their values,
    and so does the base matrix, which is never a receiver.  When no chain
    fails and the collaborators answer at once, every element gets its
    clone. *)
Theorem applyMatrix_composes_onto_clones (matrix : MatrixArg)
    (schedule : list Event) (this : Svg) (h : list M) :
  let p := applyMatrix matrix schedule this h in
  let p0 := applyMatrix_start matrix this h in
  h `prefix_of` heap p
  ∧ base p = base p0
  ∧ base_value p = base_value p0
  ∧ NoDup (composed p)
  ∧ Forall (λ r, length h < r ∧ base p0 < r ∧ r < length (heap p))
      (composed p)
  ∧ (∀ bv, base_value p0 = Some bv →
       cloned_per_element bv (elements this) p)
  ∧ (∀ i res, stages p !! i = Some (AwaitApply res) →
       res = elements this !! i ≫= chain (base_value p0))
  ∧ (∀ outs, mapM (chain (base_value p0)) (elements this) = Some outs →
       length (composed (applyMatrix matrix
                           (immediate (length (elements this))) this h))
       = length (elements this)).
Proof.
  intros p p0.
  pose proof (consistent_applyMatrix matrix schedule this h) as Hc.
  simpl in Hc. fold p p0 in Hc.
  assert (∃ v, heap p0 = h ++ [v]) as [v Hp0].
  { unfold p0, applyMatrix_start.
    destruct (base_matrix_grows matrix h) as [v Hv].
    destruct (base_matrix matrix h) as [r h0]. simpl in *. by exists v. }
  split_and!.
  - etrans; [|apply (c_heap _ _ _ _ Hc)]. rewrite Hp0. by eexists.
  - apply run_base.
  - apply (c_base _ _ _ _ Hc).
  - apply (c_composed_NoDup _ _ _ _ Hc).
  - eapply Forall_impl; [apply (c_composed_fresh _ _ _ _ Hc)|].
    simpl. intros r (Hr1 & Hr2 & Hr3). rewrite Hp0, length_app in Hr1.
    simpl in Hr1. assert (base p = base p0) as Hbase by apply run_base.
    lia.
  - intros bv Hbv. eapply cloned_run; [|apply cloned_start].
    rewrite <- Hbv. apply consistent_start.
  - intros i res Hst. by destruct (c_stage _ _ _ _ Hc i _ Hst).
  - apply immediate_composed.
Qed.

(** Two pipelines that look the same and whose base matrices have the
    same value stay so under every event. *)
Lemma step_visible (p q : Pipeline M) (ev : Event) :
  visible p = visible q → base_value p = base_value q →
  visible (step p ev) = visible (step q ev)
  ∧ base_value (step p ev) = base_value (step q ev).
Proof.
  intros Hv Hb. pose proof Hv as Hv'. unfold visible in Hv'.
  injection Hv' as Hsrc Hst Hsvg Hcomp Hcalls Hfin.
  pose proof Hb as Hb'. unfold base_value in Hb'.
  destruct ev as [i|i]; simpl.
  - rewrite !on_bbox_unfold, <- Hsrc, <- Hst, <- Hb'.
    destruct (stages p !! i) as [[| |]|]; try done.
    destruct (source p !! i) as [elem|]; try done.
    destruct (elem_getBBox elem) as [bbox|]; try done.
    destruct (heap p !! base p) as [b|] eqn:Hbp; try done.
    symmetry in Hb'. split.
    + unfold visible. simpl. congruence.
    + unfold base_value. simpl.
      by rewrite (lookup_app_l_Some _ _ _ _ Hbp),
        (lookup_app_l_Some _ _ _ _ Hb').
  - unfold on_applied. rewrite <- Hst.
    destruct (stages p !! i) as [[|[e|]|]|]; try done.
    split; [|done]. unfold visible. simpl.
    by rewrite Hsrc, Hsvg, Hcomp, Hcalls, Hfin.
Qed.

Lemma run_visible (schedule : list Event) (p q : Pipeline M) :
  visible p = visible q → base_value p = base_value q →
  visible (run schedule p) = visible (run schedule q).
Proof.
  revert p q. induction schedule as [|ev sch IH]; intros p q Hv Hb; [done|].
  simpl. destruct (step_visible p q ev Hv Hb) as [Hv' Hb']. by apply IH.
Qed.

Lemma applyMatrix_array_pair (schedule : list Event) (this : Svg)
    (h h' : list M) (r1 r2 r : ref) (v1 v2 : M) :
  (∀ m : M, mx_mul mx_identity m = m) →
  h !! r1 = Some v1 → h !! r2 = Some v2 → h' !! r = Some (mx_mul v1 v2) →
  visible (applyMatrix (MatrixArray [r1; r2]) schedule this h)
  = visible (applyMatrix (OneMatrix r) schedule this h').
Proof.
  intros Hid H1 H2 Hr. apply run_visible.
  - unfold applyMatrix_start. rewrite (base_matrix_pair _ _ _ _ _ H1 H2).
    done.
  - unfold applyMatrix_start, base_value.
    rewrite (base_matrix_pair _ _ _ _ _ H1 H2). simpl.
    rewrite lookup_app_r, Nat.sub_diag by done. simpl.
    rewrite Hid. symmetry. by apply lookup_app_l_Some.
Qed.

(** C10: with an empty array nothing is composed onto the new base
    matrix, the pipeline is the one that [null] starts, and the base
    transform of every element is the identity. *)
Theorem applyMatrix_empty_array_as_null (schedule : list Event)
    (this : Svg) (h : list M) :
  applyMatrix (MatrixArray []) schedule this h
    = applyMatrix NoMatrix schedule this h
  ∧ base_matrix (MatrixArray []) h = (length h, h ++ [mx_identity])
  ∧ base_value (applyMatrix_start (MatrixArray []) this h)
    = Some mx_identity
  ∧ ∀ e, chain (base_value (applyMatrix_start (MatrixArray []) this h)) e
         = transformed mx_identity e.
Proof.
  assert (base_value (applyMatrix_start (MatrixArray []) this h)
          = Some mx_identity) as Hb.
  { unfold base_value, applyMatrix_start. simpl.
    by rewrite lookup_app_r, Nat.sub_diag. }
  split_and!; [done|done|done|]. intros e. by rewrite Hb.
Qed.
End PipelineResults.
(** ** What the caller sees when a collaborator fails *)

Section AttemptFacts.
Context {M BBox : Type} `{MatrixLib M} `{Collaborators M BBox}.

#[local] Existing Instance collaborator_ops.

Implicit Types (a : Attempt M) (i : nat).

Lemma consistent_bbox_callback h0 b els within_call i a :
  consistent h0 b els (pipeline a) →
  consistent h0 b els (pipeline (bbox_callback within_call i a)).
Proof.
  intros Hc. unfold bbox_callback.
  destruct (stages (pipeline a) !! i) as [[| |]|]; try done.
  destruct (applyMatrix_answer i (pipeline a)) as [[e|e| |err]|]; try done;
    simpl.
  - by apply consistent_on_applied, consistent_on_bbox.
  - by apply consistent_on_bbox.
  - by apply consistent_on_bbox.
  - destruct within_call; simpl; by apply consistent_on_bbox.
Qed.

Lemma bbox_callback_stages_ne within_call i j a :
  i ≠ j →
  stages (pipeline (bbox_callback within_call i a)) !! j
  = stages (pipeline a) !! j.
Proof.
  intros Hne. unfold bbox_callback.
  destruct (stages (pipeline a) !! i) as [[| |]|]; try done.
  destruct (applyMatrix_answer i (pipeline a)) as [[e|e| |err]|]; try done;
    simpl.
  - by rewrite on_applied_stages_ne, on_bbox_stages_ne.
  - by rewrite on_bbox_stages_ne.
  - by rewrite on_bbox_stages_ne.
  - destruct within_call; simpl; by rewrite on_bbox_stages_ne.
Qed.

Lemma bbox_callback_dispatched within_call i a :
  dispatched (bbox_callback within_call i a) = dispatched a.
Proof.
  unfold bbox_callback.
  destruct (stages (pipeline a) !! i) as [[| |]|]; try done.
  destruct (applyMatrix_answer i (pipeline a)) as [[e|e| |err]|]; try done.
  by destruct within_call.
Qed.

Lemma bbox_callback_later_escaped i a :
  escaped (bbox_callback false i a) = escaped a.
Proof.
  unfold bbox_callback.
  destruct (stages (pipeline a) !! i) as [[| |]|]; try done.
  by destruct (applyMatrix_answer i (pipeline a)) as [[e|e| |err]|].
Qed.

Lemma consistent_attempt_step h0 b els a ev :
  consistent h0 b els (pipeline a) →
  consistent h0 b els (pipeline (attempt_step a ev)).
Proof.
  intros Hc. destruct ev as [i|i]; simpl.
  - case_decide; [|done].
    destruct (source (pipeline a) !! i) as [elem|]; [|done].
    destruct (getBBox_reply elem); try done.
    by apply consistent_bbox_callback.
  - by apply consistent_on_applied.
Qed.

Lemma attempt_step_escaped a ev : escaped (attempt_step a ev) = escaped a.
Proof.
  destruct ev as [i|i]; simpl; [|done].
  case_decide; [|done].
  destruct (source (pipeline a) !! i) as [elem|]; [|done].
  destruct (getBBox_reply elem); try done.
  apply bbox_callback_later_escaped.
Qed.

(** The state of the loop of [async.each] after its first [k] rounds. *)
Lemma dispatch_prefix matrix this h k :
  let p0 := applyMatrix_start matrix this h in
  let b := base_value p0 in
  let els := elements this in
  let a := foldl dispatch (mkAttempt p0 0 None []) (seq 0 k) in
  k ≤ length els →
  consistent (heap p0) b els (pipeline a)
  ∧ (∀ j, k ≤ j → j < length els →
       stages (pipeline a) !! j = Some AwaitBBox)
  ∧ (∀ err, escaped a = Some err →
       ∃ e, e ∈ els ∧ raises_within b e err)
  ∧ (escaped a = None →
     ∀ j e err, j < k → els !! j = Some e → ¬ raises_within b e err).
Proof.
  intros p0 b els. induction k as [|k IH]; intros a Hk.
  { simpl in a. subst a. simpl. split_and!.
    - apply consistent_start.
    - intros j _ Hj. unfold p0, applyMatrix_start.
      destruct (base_matrix matrix h). simpl. by apply lookup_replicate_2.
    - done.
    - intros _ j e err Hj. lia. }
  subst a. rewrite seq_S, foldl_app. simpl.
  destruct IH as (Hc & Hst & Hsound & Hnone); [lia|].
  set (a := foldl dispatch (mkAttempt p0 0 None []) (seq 0 k)) in *.
  unfold dispatch. destruct (escaped a) as [err0|] eqn:Hesc.
  { split_and!; [done| | |].
    - intros j Hj. apply Hst. lia.
    - intros err Herr. rewrite Hesc in Herr. by apply Hsound.
    - intros Hn. by rewrite Hesc in Hn. }
  destruct (lookup_lt_is_Some_2 els k) as [e He]; [lia|].
  rewrite (c_source _ _ _ _ Hc). fold els. rewrite He.
  assert (∀ j e' err, j < k → els !! j = Some e' → ¬ raises_within b e' err)
    as Hbefore by (by apply Hnone).
  destruct (getBBox_reply e) as [bbox|bbox| |err] eqn:Hreply.
  - (* the callback of getBBox runs before getBBox returns *)
    pose proof (consistent_bbox_callback _ _ _ true k
                  (mkAttempt (pipeline a) (S k) None (uncaught a)) Hc) as Hc'.
    split_and!.
    + exact Hc'.
    + intros j Hj Hlt. rewrite bbox_callback_stages_ne by lia.
      apply Hst; lia.
    + intros err. unfold bbox_callback. simpl.
      rewrite (Hst k) by lia. unfold applyMatrix_answer.
      rewrite (c_source _ _ _ _ Hc). fold els. rewrite He.
      rewrite (c_base _ _ _ _ Hc). fold b.
      destruct b as [bv|] eqn:Hb; [|done].
      rewrite Hreply. simpl.
      destruct (applyMatrix_reply (mx_mul bv (own_matrix bbox e)) e)
        as [e'|e'| |err'] eqn:Hans; simpl; try by rewrite ?Hesc.
      intros [= <-]. exists e. split; [by eapply list_elem_of_lookup_2|].
      right. by exists bbox, bv.
    + intros Hnow j e' err Hj He'.
      destruct (decide (j = k)) as [->|Hne]; [|apply Hbefore with j; [lia|done]].
      rewrite He in He'. injection He' as <-.
      intros [Hthrows|(bbox' & bv & Hnow' & Hbv & Hthrows)]; [congruence|].
      rewrite Hreply in Hnow'. injection Hnow' as <-.
      revert Hnow. unfold bbox_callback. simpl.
      rewrite (Hst k) by lia. unfold applyMatrix_answer.
      rewrite (c_source _ _ _ _ Hc). fold els. rewrite He.
      rewrite (c_base _ _ _ _ Hc). fold b. rewrite Hbv, Hreply. simpl.
      by rewrite Hthrows.
  - split_and!; [done| |done|].
    + intros j Hj Hlt. apply Hst; lia.
    + intros _ j e' err Hj He'.
      destruct (decide (j = k)) as [->|Hne]; [|apply Hbefore with j; [lia|done]].
      rewrite He in He'. injection He' as <-.
      intros [?|(? & ? & ? & _)]; congruence.
  - split_and!; [done| |done|].
    + intros j Hj Hlt. apply Hst; lia.
    + intros _ j e' err Hj He'.
      destruct (decide (j = k)) as [->|Hne]; [|apply Hbefore with j; [lia|done]].
      rewrite He in He'. injection He' as <-.
      intros [?|(? & ? & ? & _)]; congruence.
  - simpl. split_and!; [done| | |done].
    + intros j Hj Hlt. apply Hst; lia.
    + intros err' [= <-]. exists e. split; [by eapply list_elem_of_lookup_2|].
      by left.
Qed.

Lemma consistent_attempt matrix schedule this h :
  let p0 := applyMatrix_start matrix this h in
  consistent (heap p0) (base_value p0) (elements this)
    (pipeline (attempt matrix schedule this h)).
Proof.
  intros p0. unfold attempt.
  assert (consistent (heap p0) (base_value p0) (elements this)
            (pipeline (attempt_start matrix this h))) as Hstart.
  { by destruct (dispatch_prefix matrix this h (length (elements this))). }
  revert Hstart. generalize (attempt_start matrix this h).
  induction schedule as [|ev sch IH]; intros a Hc; [done|].
  simpl. by apply IH, consistent_attempt_step.
Qed.

Lemma attempt_escaped matrix schedule this h :
  escaped (attempt matrix schedule this h)
  = escaped (attempt_start matrix this h).
Proof.
  unfold attempt. generalize (attempt_start matrix this h).
  induction schedule as [|ev sch IH]; intros a; [done|].
  simpl. by rewrite IH, attempt_step_escaped.
Qed.

(** C3 (as amended): when the bounding box or the matrix application of
    some element fails, because the element raises or because it never
    calls back, no partial document is produced: the callback of
    [applyMatrix] does not run at all, and whenever it does run it is
    handed a document that holds one output for every element of the
    source.  The callback never carries a failure report.  The caller is
    told of a failure only by an exception: the one that an element raises
    while [applyMatrix] is still running, which then leaves [applyMatrix];
    and every exception that leaves [applyMatrix] is of that kind. *)
Theorem applyMatrix_no_partial_document (matrix : MatrixArg)
    (schedule : list Event) (this : Svg) (h : list M) :
  let a := attempt matrix schedule this h in
  let b := base_value (applyMatrix_start matrix this h) in
  (∀ inv, inv ∈ calls (pipeline a) →
     ∃ doc, inv = [ArgSvg doc]
       ∧ Some <$> elements doc ≡ₚ chain b <$> elements this)
  ∧ ((∃ e, e ∈ elements this ∧ chain b e = None) → calls (pipeline a) = [])
  ∧ ((∃ e err, e ∈ elements this ∧ raises_within b e err) →
     is_Some (escaped a))
  ∧ (∀ err, escaped a = Some err →
       ∃ e, e ∈ elements this ∧ raises_within b e err).
Proof.
  intros a b.
  pose proof (consistent_attempt matrix schedule this h) as Hc.
  simpl in Hc. fold a b in Hc.
  destruct (dispatch_prefix matrix this h (length (elements this)))
    as (_ & _ & Hsound & Hnone); [done|].
  fold (attempt_start matrix this h) in Hsound, Hnone. fold b in Hsound, Hnone.
  assert (escaped a = escaped (attempt_start matrix this h)) as Hesc
    by apply attempt_escaped.
  split_and!.
  - intros inv Hinv. by eapply consistent_complete_document.
  - by eapply consistent_failing_no_call.
  - intros (e & err & [j Hj]%list_elem_of_lookup & Hraises).
    rewrite Hesc.
    destruct (escaped (attempt_start matrix this h)) eqn:Hstart; [done|].
    destruct (Hnone eq_refl j e err); [by eapply lookup_lt_Some|done|done].
  - intros err. rewrite Hesc. apply Hsound.
Qed.
End AttemptFacts.


(** C6: handing [applyMatrix] the array [[m1, m2]] gives the caller and
    the elements the same pipeline, event for event, as handing it one
    matrix whose value is [m1] composed with [m2], provided that the value
    of [new Matrix()] is a left identity of [add]; and the order counts:
    on the reference shapes a quarter turn followed by a translation and
    the translation followed by the quarter turn give different
    documents. *)
Theorem applyMatrix_array_composes_in_order :
  (∀ (M BBox : Type) (ML : MatrixLib M) (EO : ElementOps M BBox)
     (schedule : list Event) (this : Svg) (h h' : list M)
     (r1 r2 r : ref) (v1 v2 : M),
     (∀ m : M, mx_mul mx_identity m = m) →
     h !! r1 = Some v1 → h !! r2 = Some v2 →
     h' !! r = Some (mx_mul v1 v2) →
     visible (applyMatrix (MatrixArray [r1; r2]) schedule this h)
     = visible (applyMatrix (OneMatrix r) schedule this h'))
  ∧ (let h := [Reference.quarter_turn; Reference.translation 10 0] in
     calls (applyMatrix (MatrixArray [0; 1]) (immediate 2)
              Reference.two_shapes h)
     ≠ calls (applyMatrix (MatrixArray [1; 0]) (immediate 2)
                Reference.two_shapes h)).
Proof.
  split.
  - intros. by eapply applyMatrix_array_pair.
  - by vm_compute.
Qed.

(** ** The factories *)

Section FactoryFacts.
Context {XmlDoc : Type} `{FileSystem} `{JsonWorld} `{XmlWorld XmlDoc}.

(** Whatever the converter answers, the callback runs once, with a
    failure report or with a success report. *)
Lemma on_converted_reports (r : Error + list SvgObject) :
  ∃ inv, on_converted r = calls_back inv
    ∧ (is_failure_report inv || is_success_report inv) = true.
Proof. destruct r; by eexists. Qed.

Lemma fromXmlString_unreported (string : string) :
  (∀ result, xml2js_parseString string ≠ Delivered result) →
  invocations (fromXmlString string) = [].
Proof.
  unfold fromXmlString. intros Hno.
  destruct (xml2js_parseString string) as [result| |]; [|done|done].
  by destruct (Hno result).
Qed.

Lemma fromJsonFile_throws (path data : string) (err : Error) :
  fs_readFile path = inr data → JSON_parse data = inl err →
  fromJsonFile path = throws err.
Proof. unfold fromJsonFile, fromJsonString. by intros -> ->. Qed.

(** C9 (the code departs from it): on a string that [JSON.parse]
    rejects, [fromJsonString] lets the exception of the parser escape and
    never runs the callback, so no failure is reported through it. *)
Theorem fromJsonString_throws (string : string) (err : Error) :
  JSON_parse string = inl err →
  thrown (fromJsonString string) = Some err
  ∧ invocations (fromJsonString string) = [].
Proof. unfold fromJsonString. by intros ->. Qed.
End FactoryFacts.

(** ** The properties at work on the reference implementation *)

Lemma findByType_document_order_example :
  elements (findByType "rect" true
              (mkSvg [Reference.square; Group None [Reference.square];
                      Reference.segment]))
  = [Reference.square; Reference.square].
Proof. reflexivity. Qed.

Lemma fromJsonString_throws_witness :
  JSON_parse "{" = inl "SyntaxError: Unexpected end of JSON input"
  ∧ thrown (fromJsonString "{")
    = Some "SyntaxError: Unexpected end of JSON input"
  ∧ invocations (fromJsonString "{") = [].
Proof.
  split; [reflexivity|].
  apply (fromJsonString_throws "{"). reflexivity.
Defined.

(** C3 fails as stated.  The second element of the first document is a
    group that never answers [getBBox]: after every callback that can fire
    has fired, the callback of [applyMatrix] has not run and no exception
    has been raised, so the caller holds no failure report of any kind.
    The second element of the other document raises in [getBBox]: the
    exception leaves [applyMatrix], and the callback, the only channel on
    which a report could be handed over, has not run either. *)
Lemma applyMatrix_failure_unreported :
  let schedule := [BBoxReady 0; Applied 0; BBoxReady 1; Applied 1] in
  let a := attempt NoMatrix schedule Unruly.with_empty_group
             ([] : list Reference.Affine) in
  let a' := attempt NoMatrix schedule Reference.with_hollow
              ([] : list Reference.Affine) in
  (getBBox_reply Unruly.empty_group = Never
   ∧ stages (pipeline a) = [Finished; AwaitBBox]
   ∧ calls (pipeline a) = []
   ∧ escaped a = None
   ∧ uncaught a = []
   ∧ ¬ ∃ inv, inv ∈ calls (pipeline a) ∧ is_failure_report inv = true)
  ∧ (getBBox_reply Reference.hollow
       = Throws "TypeError: Cannot read property '0' of undefined"
     ∧ calls (pipeline a') = []
     ∧ escaped a'
       = Some "TypeError: Cannot read property '0' of undefined"
     ∧ ¬ ∃ inv, inv ∈ calls (pipeline a') ∧ is_failure_report inv = true).
Proof.
  cbv zeta. split.
  - split_and!; [done|done|done|done|done|].
    intros (inv & Hinv & _). vm_compute in Hinv.
    by apply elem_of_nil in Hinv.
  - split_and!; [done|done|done|].
    intros (inv & Hinv & _). vm_compute in Hinv.
    by apply elem_of_nil in Hinv.
Qed.

Lemma applyMatrix_no_partial_document_witness :
  let a := attempt NoMatrix [BBoxReady 0; Applied 0; BBoxReady 1; Applied 1]
             Reference.with_hollow ([] : list Reference.Affine) in
  let b := Some Reference.affine_identity in
  Reference.hollow ∈ elements Reference.with_hollow
  ∧ raises_within b Reference.hollow
      "TypeError: Cannot read property '0' of undefined"
  ∧ calls (pipeline a) = []
  ∧ is_Some (escaped a).
Proof.
  cbv zeta.
  assert (Reference.hollow ∈ elements Reference.with_hollow) as Hin.
  { right. left. }
  assert (raises_within (Some Reference.affine_identity) Reference.hollow
            "TypeError: Cannot read property '0' of undefined") as Hraises.
  { left. reflexivity. }
  destruct (applyMatrix_no_partial_document NoMatrix
              [BBoxReady 0; Applied 0; BBoxReady 1; Applied 1]
              Reference.with_hollow ([] : list Reference.Affine))
    as (_ & Hnone & Hescapes & _).
  split; [exact Hin|]. split; [exact Hraises|]. split.
  - apply Hnone. exists Reference.hollow. split; [exact Hin|reflexivity].
  - apply Hescapes. exists Reference.hollow. eexists. split; [exact Hin|].
    exact Hraises.
Defined.

Lemma applyMatrix_completion_order_witness :
  let schedule := [BBoxReady 0; BBoxReady 1; Applied 1; Applied 0] in
  let p := applyMatrix NoMatrix schedule Reference.two_shapes
             ([] : list Reference.Affine) in
  let doc := mkSvg [Reference.segment; Reference.square] in
  [ArgSvg doc] ∈ calls p
  ∧ finished p = [1; 0]
  ∧ finished p ≡ₚ seq 0 2
  ∧ Some <$> elements doc ≡ₚ
      chain (Some Reference.affine_identity) <$> elements Reference.two_shapes.
Proof.
  cbv zeta.
  assert ([ArgSvg (mkSvg [Reference.segment; Reference.square])]
          ∈ calls (applyMatrix NoMatrix
                     [BBoxReady 0; BBoxReady 1; Applied 1; Applied 0]
                     Reference.two_shapes ([] : list Reference.Affine)))
    as Hin.
  { left. }
  split; [exact Hin|]. split; [reflexivity|].
  destruct (proj1 (applyMatrix_completion_order NoMatrix
                     Reference.two_shapes [])
              [BBoxReady 0; BBoxReady 1; Applied 1; Applied 0] _ Hin)
    as (Hperm & _ & Hout).
  split; [exact Hperm|exact Hout].
Defined.

Lemma applyMatrix_composes_onto_clones_witness :
  let h := [Reference.translation 3 4; Reference.quarter_turn] in
  let this := Reference.two_shapes in
  let p0 := applyMatrix_start (MatrixArray [0; 1]) this h in
  let p := applyMatrix (MatrixArray [0; 1])
             [BBoxReady 1; BBoxReady 0; Applied 0] this h in
  ∃ bv outs,
    base_value p0 = Some bv
    ∧ cloned_per_element bv (elements this) p
    ∧ mapM (chain (base_value p0)) (elements this) = Some outs
    ∧ length (composed (applyMatrix (MatrixArray [0; 1])
                          (immediate (length (elements this))) this h))
      = length (elements this).
Proof.
  cbv zeta.
  destruct (applyMatrix_composes_onto_clones (MatrixArray [0; 1])
              [BBoxReady 1; BBoxReady 0; Applied 0] Reference.two_shapes
              [Reference.translation 3 4; Reference.quarter_turn])
    as (_ & _ & _ & _ & _ & Hclones & _ & Hall).
  eexists _, _. split; [reflexivity|].
  split; [apply Hclones; reflexivity|].
  split; [reflexivity|].
  eapply Hall. reflexivity.
Defined.

Lemma applyMatrix_array_composes_in_order_witness :
  let h := [Reference.quarter_turn; Reference.translation 10 0;
            Reference.affine_mul Reference.quarter_turn
              (Reference.translation 10 0)] in
  (∀ m, Reference.affine_mul Reference.affine_identity m = m)
  ∧ visible (applyMatrix (MatrixArray [0; 1]) (immediate 2)
               Reference.two_shapes h)
    = visible (applyMatrix (OneMatrix 2) (immediate 2)
                 Reference.two_shapes h).
Proof.
  cbv zeta.
  assert (∀ m, Reference.affine_mul Reference.affine_identity m = m) as Hid.
  { intros [a b c d e f]. unfold Reference.affine_mul. simpl.
    f_equal; lia. }
  split; [exact Hid|].
  apply (proj1 applyMatrix_array_composes_in_order Reference.Affine
           Reference.BBox Reference.affine_lib Reference.shapes (immediate 2)
           Reference.two_shapes _ _ 0 1 2
           Reference.quarter_turn (Reference.translation 10 0) Hid);
    reflexivity.
Defined.

(** * Further properties of the container *)

(** ** More on [findByType] *)

Lemma Svg_eq (s t : Svg) : elements s = elements t → s = t.
Proof. destruct s, t. simpl. by intros ->. Qed.

Lemma bind_singleton_id {A} (l : list A) : l ≫= (λ x, [x]) = l.
Proof. induction l as [|x l IH]; [done|]. by rewrite bind_cons, IH. Qed.

Lemma findByType_shallow_filter type this :
  elements (findByType type false this)
  = filter (λ e, elem_type e = type) (elements this).
Proof.
  rewrite findByType_elements.
  rewrite (filter_bind_each _ _ (λ x, [x]) _ (found_at_top type)).
  by rewrite bind_singleton_id.
Qed.

Lemma found_at_typed type all e :
  Forall (λ x, elem_type x = type) (found_at type all e).
Proof.
  destruct all.
  - rewrite found_at_deep. apply Forall_forall.
    by intros x [Hx _]%list_elem_of_filter.
  - rewrite found_at_top. apply Forall_forall.
    by intros x [Hx _]%list_elem_of_filter.
Qed.

Lemma findByType_typed type all this :
  Forall (λ x, elem_type x = type) (elements (findByType type all this)).
Proof.
  rewrite findByType_elements.
  induction (elements this) as [|e l IH]; [done|].
  rewrite bind_cons. apply Forall_app. split; [apply found_at_typed|done].
Qed.

Lemma filter_all {A} (P : A → Prop) `{∀ x, Decision (P x)} (l : list A) :
  Forall P l → filter P l = l.
Proof.
  induction 1 as [|x l Hx _ IH]; [done|].
  by rewrite filter_cons, decide_True, IH.
Qed.

(** A search at the top level of the result of a search for the same
    type gives that result again. *)
Theorem findByType_shallow_of_result (type : string) (all : bool) (this : Svg) :
  findByType type false (findByType type all this) = findByType type all this.
Proof.
  apply Svg_eq. rewrite findByType_shallow_filter.
  apply filter_all, findByType_typed.
Qed.

(** A search at the top level of the result of a search for another type
    finds nothing. *)
Lemma findByType_other_type_of_result (type other : string) (all : bool)
    (this : Svg) :
  other ≠ type →
  elements (findByType other false (findByType type all this)) = [].
Proof.
  intros Hne. rewrite findByType_shallow_filter.
  pose proof (findByType_typed type all this) as Hall.
  induction Hall as [|x l Hx _ IH]; [done|].
  rewrite filter_cons, decide_False; [done|congruence].
Qed.

Lemma found_at_without_group type all e :
  type_is "g" e = false → found_at type all e = found_at type false e.
Proof. unfold found_at. intros ->. by rewrite andb_false_r. Qed.

(** In a document without a group at the top level the flag [all] makes
    no difference. *)
Theorem findByType_all_without_groups (type : string) (this : Svg) :
  Forall (λ e, type_is "g" e = false) (elements this) →
  findByType type true this = findByType type false this.
Proof.
  intros Hno. apply Svg_eq. rewrite !findByType_elements.
  induction Hno as [|e l He _ IH]; [done|].
  by rewrite !bind_cons, IH, (found_at_without_group _ _ _ He).
Qed.

(** What is found at the top level alone is also found by the search
    that descends into the groups, in the same relative order. *)
Theorem findByType_shallow_within_deep (type : string) (this : Svg) :
  elements (findByType type false this)
  `sublist_of` elements (findByType type true this).
Proof.
  rewrite !findByType_elements.
  induction (elements this) as [|e l IH]; [done|].
  rewrite !bind_cons. apply sublist_app; [|done].
  unfold found_at. simpl. apply sublist_app; [done|apply sublist_nil_l].
Qed.

(** Searching two sequences of elements laid end to end gives the two
    results laid end to end. *)
Theorem findByType_app (type : string) (all : bool) (l k : list SvgObject) :
  elements (findByType type all (mkSvg (l ++ k)))
  = elements (findByType type all (mkSvg l))
    ++ elements (findByType type all (mkSvg k)).
Proof. rewrite !findByType_elements. simpl. apply bind_app. Qed.

(** ** More on [findById] *)

Lemma id_is_true id e : id_is id e = true ↔ elem_id e = Some id.
Proof.
  unfold id_is. destruct (elem_id e) as [i|]; [|done].
  rewrite String.eqb_eq. split; [by intros ->|by intros [= ->]].
Qed.

Lemma findById_app id l k :
  findById id (mkSvg (l ++ k))
  = foldl (findById_visit id) (findById id (mkSvg l)) k.
Proof. unfold findById. simpl. apply foldl_app. Qed.

Lemma findById_visit_skip id r e :
  id_is id e = false → type_is "g" e = false → findById_visit id r e = r.
Proof. unfold findById_visit. by intros -> ->. Qed.

Lemma findById_visit_decides id r e :
  id_is id e = true ∨ type_is "g" e = true →
  findById_visit id r e = findById_visit id None e.
Proof.
  unfold findById_visit. intros [->| ->]; [done|]. by destruct (id_is id e).
Qed.

Lemma foldl_findById_skip id r l :
  Forall (λ e, id_is id e = false ∧ type_is "g" e = false) l →
  foldl (findById_visit id) r l = r.
Proof.
  induction 1 as [|e l [Hi Hg] _ IH]; [done|].
  simpl. by rewrite findById_visit_skip.
Qed.

(** The answer of [findById] is that of the last top-level element that
    carries the id or is a group; whatever stands before it, a match
    included, has no say. *)
Theorem findById_decided_by_last (id : string) (pre post : list SvgObject)
    (c : SvgObject) :
  id_is id c = true ∨ type_is "g" c = true →
  Forall (λ e, id_is id e = false ∧ type_is "g" e = false) post →
  findById id (mkSvg (pre ++ c :: post)) = findById_visit id None c.
Proof.
  intros Hc Hpost. rewrite findById_app. simpl.
  rewrite foldl_findById_skip by done. by apply findById_visit_decides.
Qed.

(** In a document without a group at the top level [findById] returns the
    last element that carries the id, and [null] when there is none. *)
Theorem findById_without_groups (id : string) (this : Svg) :
  Forall (λ e, type_is "g" e = false) (elements this) →
  findById id this = last (filter (λ e, id_is id e = true) (elements this)).
Proof.
  destruct this as [els]. simpl. intros Hno.
  induction els as [|e els IH] using rev_ind; [done|].
  apply Forall_app in Hno as [Hels [He _]%Forall_cons].
  rewrite findById_app, filter_app, IH by done. simpl.
  rewrite filter_cons, filter_nil. unfold findById_visit. rewrite He.
  destruct (id_is id e) eqn:Hid.
  - rewrite decide_True by done. by rewrite last_snoc.
  - rewrite decide_False by done. by rewrite app_nil_r.
Qed.

Lemma descendants_cons i c cs :
  descendants (Group i (c :: cs)) = subtree c ++ descendants (Group i cs).
Proof. done. Qed.

Lemma Group_findById_cons id i c cs :
  Group_findById id (Group i (c :: cs))
  = if id_is id c then Some c
    else match Group_findById id c with
         | Some r => Some r
         | None => Group_findById id (Group i cs)
         end.
Proof. done. Qed.

Lemma Group_findById_sound id g r :
  Group_findById id g = Some r → id_is id r = true ∧ r ∈ descendants g.
Proof.
  revert r. induction g as [k i c|i cs IH] using SvgObject_tree_ind; [done|].
  induction IH as [|c cs Hc _ IHcs]; intros r; [done|].
  rewrite Group_findById_cons, descendants_cons, subtree_unfold.
  destruct (id_is id c) eqn:Hid.
  - intros [= <-]. split; [done|]. by left.
  - destruct (Group_findById id c) as [r'|] eqn:Hr'.
    + intros [= <-]. destruct (Hc r' eq_refl) as [? ?]. split; [done|].
      right. apply elem_of_app. by left.
    + intros Hr. destruct (IHcs r Hr) as [? ?]. split; [done|].
      right. apply elem_of_app. by right.
Qed.

Lemma Group_findById_absent id g :
  (∀ x, x ∈ descendants g → id_is id x = false) → Group_findById id g = None.
Proof.
  induction g as [k i c|i cs IH] using SvgObject_tree_ind; [done|].
  induction IH as [|c cs Hc _ IHcs]; intros Habs; [done|].
  rewrite Group_findById_cons.
  rewrite descendants_cons, subtree_unfold in Habs.
  rewrite (Habs c) by (by left). rewrite Hc, IHcs; [done| |].
  - intros x Hx. apply Habs. right. apply elem_of_app. by right.
  - intros x Hx. apply Habs. right. apply elem_of_app. by left.
Qed.

(** Whatever [findById] returns carries the id and is an element of the
    tree. *)
Theorem findById_sound (id : string) (this : Svg) (e : SvgObject) :
  findById id this = Some e →
  id_is id e = true ∧ e ∈ preorder (elements this).
Proof.
  destruct this as [els]. simpl. revert e.
  induction els as [|c els IH] using rev_ind; intros e; [done|].
  rewrite findById_app. simpl. unfold preorder. rewrite bind_app.
  change ([c] ≫= subtree) with (subtree c ++ []).
  rewrite app_nil_r, subtree_unfold. unfold findById_visit.
  destruct (id_is id c) eqn:Hid.
  - intros [= <-]. split; [done|]. apply elem_of_app. right. by left.
  - destruct (type_is "g" c).
    + intros [? ?]%Group_findById_sound. split; [done|].
      apply elem_of_app. right. by right.
    + intros [? ?]%IH. split; [done|]. apply elem_of_app. by left.
Qed.

Lemma absent_no_match id (l : list SvgObject) :
  id ∉ omap elem_id l → ∀ x, x ∈ l → id_is id x = false.
Proof.
  intros Habs x Hx. destruct (id_is id x) eqn:Hid; [|done].
  apply id_is_true in Hid. exfalso. apply Habs.
  apply list_elem_of_omap. by exists x.
Qed.

(** An id that no element of the tree carries is not found. *)
Theorem findById_absent (id : string) (this : Svg) :
  id ∉ all_ids this → findById id this = None.
Proof.
  unfold all_ids. intros Habs. pose proof (absent_no_match _ _ Habs) as Hno.
  clear Habs. destruct this as [els]. simpl in *.
  induction els as [|c els IH] using rev_ind; [done|].
  rewrite findById_app. simpl. unfold findById_visit.
  assert (∀ x, x ∈ subtree c → id_is id x = false) as Hc.
  { intros x Hx. apply Hno. unfold preorder. rewrite bind_app.
    apply elem_of_app. right. simpl. by rewrite app_nil_r. }
  rewrite (Hc c) by (rewrite subtree_unfold; by left).
  destruct (type_is "g" c).
  - apply Group_findById_absent. intros x Hx. apply Hc.
    rewrite subtree_unfold. by right.
  - apply IH. intros x Hx. apply Hno. unfold preorder. rewrite bind_app.
    apply elem_of_app. by left.
Qed.

(** ** More on serialisation *)

Lemma join_app (l k : list string) : join (l ++ k) = join l +:+ join k.
Proof.
  induction l as [|s l IH]; [done|].
  change (s +:+ join (l ++ k) = (s +:+ join l) +:+ join k).
  by rewrite IH, append_assoc.
Qed.

Section MoreSerialisation.
Context `{Serialisers}.

Lemma toString_unwrapped matrix this :
  toString false matrix this
  = join ((λ e, xml_toString (elem_toXml (matrix_flag matrix) e))
            <$> elements this).
Proof. unfold toString. by rewrite foldl_append. Qed.

(** Serialising after [addElement] gives the JSON of the document as it
    was, with the JSON of the new element pushed at the end. *)
Lemma toJSON_addElement (matrix : option bool) (e : SvgObject) (this : Svg) :
  json_elements (toJSON matrix (addElement e this))
  = json_elements (toJSON matrix this) ++ [elem_toJSON (matrix_flag matrix) e].
Proof. rewrite !toJSON_elements. simpl. by rewrite fmap_app. Qed.

(** The unwrapped text of two sequences of elements laid end to end is
    the unwrapped text of the first followed by that of the second. *)
Theorem toString_unwrapped_app (matrix : option bool) (l k : list SvgObject) :
  toString false matrix (mkSvg (l ++ k))
  = toString false matrix (mkSvg l) +:+ toString false matrix (mkSvg k).
Proof. rewrite !toString_unwrapped. simpl. by rewrite fmap_app, join_app. Qed.

(** The unwrapped text is the texts of the children of the wrapped node,
    joined in order. *)
Theorem toString_unwrapped_children (matrix : option bool) (this : Svg) :
  toString false matrix this
  = join (xml_toString <$> xml_children (toXml matrix this)).
Proof.
  rewrite toString_unwrapped, toXml_children. simpl.
  by rewrite <- list_fmap_compose.
Qed.
End MoreSerialisation.

(** ** More on the transform pipeline *)

Lemma omap_id_fmap_Some {A} (l : list A) : omap id (Some <$> l) = l.
Proof. induction l as [|x l IH]; [done|]. simpl. by f_equal. Qed.

Section MorePipeline.
Context {M BBox : Type} `{MatrixLib M} `{ElementOps M BBox}.

Implicit Types (p : Pipeline M) (h : list M) (i : nat).

(** Under every schedule the callback of [applyMatrix] runs at most
    once. *)
Theorem applyMatrix_calls_at_most_once (matrix : MatrixArg)
    (schedule : list Event) (this : Svg) (h : list M) :
  length (calls (applyMatrix matrix schedule this h)) ≤ 1.
Proof.
  pose proof (consistent_applyMatrix matrix schedule this h) as Hc.
  simpl in Hc. rewrite (c_calls _ _ _ _ Hc). case_decide; simpl; lia.
Qed.

(** Two schedules under which the callback runs deliver the same
    elements, up to their order. *)
Theorem applyMatrix_schedules_agree (matrix : MatrixArg)
    (schedule1 schedule2 : list Event) (this : Svg) (h : list M)
    (doc1 doc2 : Svg) :
  [ArgSvg doc1] ∈ calls (applyMatrix matrix schedule1 this h) →
  [ArgSvg doc2] ∈ calls (applyMatrix matrix schedule2 this h) →
  elements doc1 ≡ₚ elements doc2.
Proof.
  intros H1 H2.
  pose proof (consistent_applyMatrix matrix schedule1 this h) as Hc1.
  pose proof (consistent_applyMatrix matrix schedule2 this h) as Hc2.
  simpl in Hc1, Hc2.
  destruct (consistent_called _ _ _ _ _ Hc1 H1) as [[= ->] Hp1].
  destruct (consistent_called _ _ _ _ _ Hc2 H2) as [[= ->] Hp2].
  assert (Some <$> elements (svg (applyMatrix matrix schedule1 this h))
          ≡ₚ Some <$> elements (svg (applyMatrix matrix schedule2 this h)))
    as Hperm.
  { by rewrite (c_svg _ _ _ _ Hc1), (c_svg _ _ _ _ Hc2), Hp1, Hp2. }
  apply (omap_Permutation id) in Hperm.
  by rewrite !omap_id_fmap_Some in Hperm.
Qed.

(** On a document without elements the callback runs with an empty
    document, whatever the matrix argument and the schedule. *)
Theorem applyMatrix_empty_document (matrix : MatrixArg)
    (schedule : list Event) (this : Svg) (h : list M) :
  elements this = [] →
  calls (applyMatrix matrix schedule this h) = [[ArgSvg new_Svg]].
Proof.
  intros Hempty.
  pose proof (consistent_applyMatrix matrix schedule this h) as Hc.
  simpl in Hc. rewrite Hempty in Hc.
  assert (finished (applyMatrix matrix schedule this h) = []) as Hfin.
  { destruct (finished _) as [|i l] eqn:Hf; [done|].
    assert (i < length (@nil SvgObject)) as Hlt.
    { eapply consistent_finished_lt; [exact Hc|]. rewrite Hf. by left. }
    simpl in Hlt. lia. }
  pose proof (c_svg _ _ _ _ Hc) as Hsvg. rewrite Hfin in Hsvg.
  rewrite (c_calls _ _ _ _ Hc), Hfin. simpl.
  destruct (svg _) as [[|e l]]; done.
Qed.

(** The base matrix built from an array is the value of [new Matrix()]
    with the values of the array composed onto it from left to right; the
    matrices of the array themselves are left as they are. *)
Theorem base_matrix_array (mats : list ref) (vs : list M) (h : list M) :
  Forall2 (λ r v, h !! r = Some v) mats vs →
  base_matrix (MatrixArray mats) h
  = (length h, h ++ [foldl mx_mul mx_identity vs]).
Proof.
  intros Hvalid. unfold base_matrix, Matrix_new. simpl. f_equal.
  generalize (mx_identity (M:=M)).
  induction Hvalid as [|r v mats vs Hr _ IH]; intros acc; [done|].
  simpl. rewrite <- IH. f_equal. unfold Matrix_add.
  rewrite lookup_app_r, Nat.sub_diag by done. simpl.
  rewrite lookup_app_l by (by eapply lookup_lt_Some). rewrite Hr.
  by rewrite insert_app_r_alt, Nat.sub_diag.
Qed.

(** When no chain fails and no callback is left that could still fire,
    the callback of [applyMatrix] has run. *)
Theorem applyMatrix_quiescent_delivers (matrix : MatrixArg)
    (schedule : list Event) (this : Svg) (h : list M) :
  let p := applyMatrix matrix schedule this h in
  let b := base_value (applyMatrix_start matrix this h) in
  (∀ e, e ∈ elements this → is_Some (chain b e)) →
  (∀ ev, step p ev = p) →
  calls p = [[ArgSvg (svg p)]].
Proof.
  intros p b Hok Hquiet.
  pose proof (consistent_applyMatrix matrix schedule this h) as Hc.
  simpl in Hc. fold p b in Hc.
  assert (∀ i, i < length (elements this) → i ∈ finished p) as Hall.
  { intros i Hi.
    destruct (lookup_lt_is_Some_2 (stages p) i) as [st Hst].
    { by rewrite (c_stages_len _ _ _ _ Hc). }
    destruct (lookup_lt_is_Some_2 (elements this) i) as [e He]; [done|].
    destruct (Hok e) as [e' He']; [by eapply list_elem_of_lookup_2|].
    pose proof (c_stage _ _ _ _ Hc i st Hst) as Hstage.
    destruct st as [|r|]; [| |done].
    - exfalso. specialize (Hquiet (BBoxReady i)). simpl in Hquiet.
      rewrite on_bbox_unfold, Hst, (c_source _ _ _ _ Hc), He in Hquiet.
      destruct b as [bv|] eqn:Hb; [|done].
      simpl in He'. unfold transformed in He'.
      destruct (elem_getBBox e) as [bbox|]; [|done].
      rewrite (c_base _ _ _ _ Hc) in Hquiet.
      apply (f_equal (λ q, length (composed q))) in Hquiet.
      simpl in Hquiet. rewrite length_app in Hquiet. simpl in Hquiet. lia.
    - exfalso. destruct Hstage as [_ ->]. rewrite He in Hst. simpl in Hst.
      rewrite He' in Hst. specialize (Hquiet (Applied i)). simpl in Hquiet.
      unfold on_applied in Hquiet. rewrite Hst in Hquiet.
      apply (f_equal (λ q, length (finished q))) in Hquiet.
      simpl in Hquiet. rewrite length_app in Hquiet. simpl in Hquiet. lia. }
  assert (finished p ≡ₚ seq 0 (length (elements this))) as Hperm.
  { apply NoDup_Permutation; [by destruct Hc|apply NoDup_seq|].
    intros i. rewrite elem_of_seq. split.
    - intros Hi. apply (consistent_finished_lt _ _ _ _ _ Hc) in Hi. lia.
    - intros [_ Hi]. apply Hall. lia. }
  apply Permutation_length in Hperm. rewrite length_seq in Hperm.
  rewrite (c_calls _ _ _ _ Hc). by rewrite decide_True.
Qed.
End MorePipeline.

(** ** More on the factories *)

Section MoreFactories.
Context {XmlDoc : Type} `{FileSystem} `{JsonWorld} `{XmlWorld XmlDoc}.







End MoreFactories.

(** ** Saving *)

Lemma append_length (s t : string) :
  String.length (s +:+ t) = String.length s + String.length t.
Proof.
  induction s as [|c s IH]; [done|].
  change (S (String.length (s +:+ t)) = S (String.length s + String.length t)).
  by rewrite IH.
Qed.

Lemma append_cancel_r (s t u : string) : s +:+ u = t +:+ u → s = t.
Proof.
  revert t. induction s as [|c s IH]; intros [|d t] Heq.
  - done.
  - apply (f_equal String.length) in Heq.
    change (String d t +:+ u) with (String d (t +:+ u)) in Heq.
    simpl in Heq. rewrite !append_length in Heq. simpl in Heq. lia.
  - apply (f_equal String.length) in Heq.
    change (String c s +:+ u) with (String c (s +:+ u)) in Heq.
    simpl in Heq. rewrite !append_length in Heq. simpl in Heq. lia.
  - change (String c (s +:+ u) = String d (t +:+ u)) in Heq.
    injection Heq as -> Heq. f_equal. by apply IH.
Qed.

Lemma export_path_inj (t1 t2 : Z) (extension : string) :
  export_path t1 extension = export_path t2 extension → t1 = t2.
Proof.
  unfold export_path. intros Heq. apply (inj _) in Heq.
  apply append_cancel_r in Heq. by apply (inj pretty).
Qed.

Lemma extend_defaults_output (d : string) (params : gmap string string) :
  extend_defaults {[ "output" := d ]} params !!! "output"
  = default d (params !! "output").
Proof.
  unfold extend_defaults. rewrite lookup_total_alt, !lookup_union.
  rewrite lookup_singleton_eq, lookup_empty.
  by destruct (params !! "output").
Qed.

Section SavingFacts.
Context `{Serialisers} `{Clock} `{Disk}.

Lemma save_result_written params this w :
  let out := default (export_path (clock_reading (readings w)) ".svg")
               (params !! "output") in
  write_error (files w) out = None →
  save_result params this w
  = (inr out,
     mkWorld (<[out := toString true None this]> (files w))
       (S (readings w))).
Proof.
  intros out Hok. unfold save_result, getTime. simpl.
  rewrite extend_defaults_output. fold out. by rewrite Hok.
Qed.

Lemma save_result_default this w :
  let file := export_path (clock_reading (readings w)) ".svg" in
  write_error (files w) file = None →
  save_result ∅ this w
  = (inr file,
     mkWorld (<[file := toString true None this]> (files w)) (S (readings w))).
Proof.
  intros file Hok. pose proof (save_result_written ∅ this w) as Hs.
  simpl in Hs. rewrite lookup_empty in Hs. by apply Hs.
Qed.

(** When the disk accepts the write, [save] reports the output path:
    [params.output] when the caller gave one, whatever else [params]
    holds, and otherwise the default path built from the clock.  The file
    at that path then holds the wrapped text of the document, and every
    other file is as it was. *)
Theorem save_writes_document (params : gmap string string) (this : Svg)
    (w : World) :
  let out := default (export_path (clock_reading (readings w)) ".svg")
               (params !! "output") in
  write_error (files w) out = None →
  (save params this w).1 = [SaveNull; SavePath out]
  ∧ files (save params this w).2 !! out = Some (toString true None this)
  ∧ ∀ path, path ≠ out →
      files (save params this w).2 !! path = files w !! path.
Proof.
  intros out Hok. unfold save.
  rewrite (save_result_written params this w Hok). simpl. split_and!.
  - done.
  - apply lookup_insert_eq.
  - intros path Hne. by apply lookup_insert_ne.
Qed.

(** Two calls of [save] without an output path report the same path
    exactly when the clock gave them the same reading, in which case the
    later call overwrites the file of the earlier one. *)
Theorem save_default_paths (this1 this2 : Svg) (w1 w2 : World) :
  let t1 := clock_reading (readings w1) in
  let t2 := clock_reading (readings w2) in
  write_error (files w1) (export_path t1 ".svg") = None →
  write_error (files w2) (export_path t2 ".svg") = None →
  (save ∅ this1 w1).1 = (save ∅ this2 w2).1 ↔ t1 = t2.
Proof.
  intros t1 t2 Hok1 Hok2. unfold save.
  rewrite (save_result_default this1 w1 Hok1),
    (save_result_default this2 w2 Hok2).
  cbn -[toString]. split.
  - intros Heq. apply (export_path_inj _ _ ".svg").
    by apply (f_equal (λ l, match l with
                            | [_; SavePath q] => q
                            | _ => EmptyString
                            end)) in Heq.
  - unfold t1, t2. by intros ->.
Qed.

(** When the disk and the converter both succeed, [savePng] reports
    [params.output], or the default [.png] path built from the first
    clock reading.  The SVG goes to the default [.svg] path built from
    the second reading, never to a path of the caller; the converter
    reads it from there, and what the converter leaves behind is the new
    state of the disk. *)
Theorem savePng_converts (params : gmap string string) (this : Svg)
    (w : World) (converted : gmap string string) :
  let png := default (export_path (clock_reading (readings w)) ".png")
               (params !! "output") in
  let file := export_path (clock_reading (S (readings w))) ".svg" in
  write_error (files w) file = None →
  gm_write (<[file := toString true None this]> (files w)) file png
    = inr converted →
  savePng params this w
  = ([SaveNull; SavePath png], mkWorld converted (S (S (readings w)))).
Proof.
  intros png file Hok Hgm. unfold savePng, getTime.
  cbn -[save_result toString]. rewrite extend_defaults_output. fold png.
  rewrite (save_result_default this (mkWorld (files w) (S (readings w))) Hok).
  cbn -[toString]. fold file. by rewrite Hgm.
Qed.

(** When the converter fails, [savePng] reports its error and nothing
    else, and the SVG that was written for it stays on the disk. *)
Theorem savePng_converter_fails (params : gmap string string) (this : Svg)
    (w : World) (err : Error) :
  let png := default (export_path (clock_reading (readings w)) ".png")
               (params !! "output") in
  let file := export_path (clock_reading (S (readings w))) ".svg" in
  write_error (files w) file = None →
  gm_write (<[file := toString true None this]> (files w)) file png
    = inl err →
  (savePng params this w).1 = [SaveError err]
  ∧ files (savePng params this w).2 !! file
    = Some (toString true None this).
Proof.
  intros png file Hok Hgm. unfold savePng, getTime.
  cbn -[save_result toString]. rewrite extend_defaults_output. fold png.
  rewrite (save_result_default this (mkWorld (files w) (S (readings w))) Hok).
  cbn -[toString]. fold file. rewrite Hgm. cbn -[toString].
  split; [done|]. apply lookup_insert_eq.
Qed.

(** When the disk refuses the SVG, [savePng] reports that error, the
    converter is not run and the disk is as it was. *)
Lemma savePng_write_fails (params : gmap string string) (this : Svg)
    (w : World) (err : Error) :
  let file := export_path (clock_reading (S (readings w))) ".svg" in
  write_error (files w) file = Some err →
  savePng params this w
  = ([SaveError err], mkWorld (files w) (S (S (readings w)))).
Proof.
  intros file Hfail. unfold savePng, save_result, getTime. simpl.
  rewrite (extend_defaults_output _ ∅), lookup_empty. simpl.
  fold file. by rewrite Hfail.
Qed.
End SavingFacts.

(** ** Documents that share an array *)

(** After [setElements] has given two documents the same array, an
    element added through one of them is an element of the other, and of
    the array of the caller. *)
Theorem setElements_shares_array (a s1 s2 : ref) (e : SvgObject)
    (l : list SvgObject) (o : Shared.Objects) :
  Shared.arrays o !! a = Some l →
  s1 < length (Shared.svgs o) → s2 < length (Shared.svgs o) →
  let o' := Shared.addElement e s1
              (Shared.setElements a s2 (Shared.setElements a s1 o)) in
  Shared.arrays o' !! a = Some (l ++ [e])
  ∧ Shared.elements_of s1 o' = Some (l ++ [e])
  ∧ Shared.elements_of s2 o' = Some (l ++ [e]).
Proof.
  intros Ha Hs1 Hs2. simpl.
  assert (Shared.svgs (Shared.setElements a s2 (Shared.setElements a s1 o))
            !! s1 = Some a) as H1.
  { simpl. destruct (decide (s2 = s1)) as [->|Hne].
    - apply list_lookup_insert_eq. by rewrite length_insert.
    - rewrite list_lookup_insert_ne by done. by apply list_lookup_insert_eq. }
  assert (Shared.svgs (Shared.setElements a s2 (Shared.setElements a s1 o))
            !! s2 = Some a) as H2.
  { simpl. apply list_lookup_insert_eq. by rewrite length_insert. }
  unfold Shared.addElement, Shared.elements_of. rewrite H1. simpl.
  rewrite Ha. simpl in *. rewrite H1, H2.
  rewrite list_lookup_insert_eq by (by eapply lookup_lt_Some). done.
Qed.

(** A document made by [new Svg()] shares its array with nothing:
    adding to it changes no array that existed before and no other
    document. *)
Theorem new_Svg_shares_nothing (e : SvgObject) (other : ref)
    (l : list SvgObject) (o : Shared.Objects) :
  Shared.elements_of other o = Some l →
  let '(this, o1) := Shared.new_Svg o in
  let o2 := Shared.addElement e this o1 in
  Shared.elements_of this o2 = Some [e]
  ∧ Shared.elements_of other o2 = Some l
  ∧ Shared.arrays o `prefix_of` Shared.arrays o2.
Proof.
  unfold Shared.elements_of. intros Hother.
  destruct (Shared.svgs o !! other) as [a|] eqn:Ho; [|done].
  pose proof (lookup_lt_Some _ _ _ Ho) as Hlt.
  pose proof (lookup_lt_Some _ _ _ Hother) as Hlta.
  unfold Shared.new_Svg, Shared.addElement. simpl.
  rewrite lookup_app_r, Nat.sub_diag by done. simpl.
  rewrite lookup_app_r, Nat.sub_diag by done. simpl.
  rewrite lookup_app_r, Nat.sub_diag by done. simpl.
  rewrite insert_app_r_alt, Nat.sub_diag by done. simpl.
  rewrite lookup_app_r, Nat.sub_diag by done. simpl.
  rewrite (lookup_app_l _ _ other) by done. rewrite Ho.
  rewrite (lookup_app_l _ _ a) by done. split_and!; [done|done|by eexists].
Qed.

(** On the document itself the two views agree: after [addElement] a
    document holds what the stateless [addElement] computes from what it
    held before. *)
Lemma addElement_refines (e : SvgObject) (this : ref)
    (l : list SvgObject) (o : Shared.Objects) :
  Shared.elements_of this o = Some l →
  Shared.elements_of this (Shared.addElement e this o)
  = Some (elements (addElement e (mkSvg l))).
Proof.
  unfold Shared.elements_of, Shared.addElement. intros Hl.
  destruct (Shared.svgs o !! this) as [a|] eqn:Ha; [|done].
  rewrite Hl. simpl. rewrite Ha.
  apply list_lookup_insert_eq. by eapply lookup_lt_Some.
Qed.

(** ** The further properties at work *)

Lemma findByType_all_without_groups_witness :
  Forall (λ e, type_is "g" e = false) (elements Reference.two_shapes)
  ∧ findByType "rect" true Reference.two_shapes
    = findByType "rect" false Reference.two_shapes.
Proof.
  assert (Forall (λ e, type_is "g" e = false)
            (elements Reference.two_shapes)) as Hno.
  { repeat constructor. }
  split; [exact Hno|]. apply (findByType_all_without_groups _ _ Hno).
Defined.

Lemma findById_decided_by_last_witness :
  let first := Shape TRect (Some "a") [] in
  let second := Shape TCircle (Some "a") [] in
  findById "a" (mkSvg ([first] ++ second :: [Reference.segment]))
  = Some second.
Proof.
  cbv zeta.
  apply (findById_decided_by_last "a" [Shape TRect (Some "a") []]
           [Reference.segment] (Shape TCircle (Some "a") [])).
  - left. reflexivity.
  - repeat constructor.
Defined.

Lemma findById_without_groups_witness :
  Forall (λ e, type_is "g" e = false) (elements Reference.two_shapes)
  ∧ findById "ln" Reference.two_shapes
    = last (filter (λ e, id_is "ln" e = true)
              (elements Reference.two_shapes)).
Proof.
  assert (Forall (λ e, type_is "g" e = false)
            (elements Reference.two_shapes)) as Hno.
  { repeat constructor. }
  split; [exact Hno|]. apply (findById_without_groups _ _ Hno).
Defined.

Lemma findById_sound_witness :
  let circle := Shape TCircle (Some "c") [] in
  let doc := mkSvg [Reference.square; Group (Some "b") [circle]] in
  findById "c" doc = Some circle
  ∧ id_is "c" circle = true
  ∧ circle ∈ preorder (elements doc).
Proof.
  cbv zeta.
  assert (findById "c"
            (mkSvg [Reference.square;
                    Group (Some "b") [Shape TCircle (Some "c") []]])
          = Some (Shape TCircle (Some "c") [])) as Hfound.
  { reflexivity. }
  split; [exact Hfound|]. apply (findById_sound _ _ _ Hfound).
Defined.

Lemma findById_absent_witness :
  ("zz" ∉ all_ids Reference.two_shapes)
  ∧ findById "zz" Reference.two_shapes = None.
Proof.
  assert ("zz" ∉ all_ids Reference.two_shapes) as Habs.
  { apply (bool_decide_unpack _). reflexivity. }
  split; [exact Habs|]. apply (findById_absent _ _ Habs).
Defined.

Lemma applyMatrix_schedules_agree_witness :
  let swapped := [BBoxReady 1; Applied 1; BBoxReady 0; Applied 0] in
  let doc1 := mkSvg [Reference.square; Reference.segment] in
  let doc2 := mkSvg [Reference.segment; Reference.square] in
  [ArgSvg doc1] ∈ calls (applyMatrix NoMatrix (immediate 2)
                           Reference.two_shapes ([] : list Reference.Affine))
  ∧ [ArgSvg doc2] ∈ calls (applyMatrix NoMatrix swapped
                             Reference.two_shapes ([] : list Reference.Affine))
  ∧ elements doc1 ≡ₚ elements doc2.
Proof.
  cbv zeta.
  assert ([ArgSvg (mkSvg [Reference.square; Reference.segment])]
          ∈ calls (applyMatrix NoMatrix (immediate 2) Reference.two_shapes
                     ([] : list Reference.Affine))) as H1.
  { left. }
  assert ([ArgSvg (mkSvg [Reference.segment; Reference.square])]
          ∈ calls (applyMatrix NoMatrix
                     [BBoxReady 1; Applied 1; BBoxReady 0; Applied 0]
                     Reference.two_shapes ([] : list Reference.Affine))) as H2.
  { left. }
  split; [exact H1|]. split; [exact H2|].
  apply (applyMatrix_schedules_agree _ _ _ _ _ _ _ H1 H2).
Defined.

Lemma applyMatrix_empty_document_witness :
  elements new_Svg = []
  ∧ calls (applyMatrix (OneMatrix 0) [BBoxReady 0] new_Svg
             [Reference.quarter_turn])
    = [[ArgSvg new_Svg]].
Proof.
  split; [reflexivity|].
  apply (applyMatrix_empty_document (OneMatrix 0) [BBoxReady 0] new_Svg
           [Reference.quarter_turn]).
  reflexivity.
Defined.

Lemma base_matrix_array_witness :
  let h := [Reference.quarter_turn; Reference.translation 10 0] in
  base_matrix (MatrixArray [0; 1; 0]) h
  = (2, h ++ [foldl mx_mul mx_identity
                [Reference.quarter_turn; Reference.translation 10 0;
                 Reference.quarter_turn]]).
Proof.
  cbv zeta.
  apply (base_matrix_array [0; 1; 0]
           [Reference.quarter_turn; Reference.translation 10 0;
            Reference.quarter_turn]
           [Reference.quarter_turn; Reference.translation 10 0]).
  repeat constructor.
Defined.

Lemma applyMatrix_quiescent_delivers_witness :
  let p := applyMatrix NoMatrix (immediate 2) Reference.two_shapes
             ([] : list Reference.Affine) in
  calls p = [[ArgSvg (svg p)]].
Proof.
  cbv zeta.
  apply (applyMatrix_quiescent_delivers NoMatrix (immediate 2)
           Reference.two_shapes ([] : list Reference.Affine)).
  - intros e He. apply list_elem_of_In in He.
    destruct He as [<-|[<-|[]]]; eexists; reflexivity.
  - intros [[|[|i]]|[|[|i]]]; reflexivity.
Defined.


Lemma save_writes_document_witness :
  let params := {[ "output" := "/out/a.svg"; "quality" := "high" ]} in
  let w := save params Reference.two_shapes Fixtures.empty_world in
  w.1 = [SaveNull; SavePath "/out/a.svg"]
  ∧ files w.2 !! "/out/a.svg"
    = Some (toString true None Reference.two_shapes).
Proof.
  cbv zeta.
  destruct (save_writes_document
              {[ "output" := "/out/a.svg"; "quality" := "high" ]}
              Reference.two_shapes Fixtures.empty_world)
    as (Hreport & Hfile & _); [vm_compute; reflexivity|].
  split; [exact Hreport|exact Hfile].
Defined.

Lemma save_default_paths_witness :
  (save ∅ Reference.two_shapes Fixtures.empty_world).1
  = (save ∅ Reference.with_hollow (mkWorld ∅ 1)).1
  ↔ clock_reading 0 = clock_reading 1.
Proof.
  apply (save_default_paths Reference.two_shapes Reference.with_hollow
           Fixtures.empty_world (mkWorld ∅ 1)); vm_compute; reflexivity.
Defined.

Lemma savePng_converts_witness :
  ∃ converted,
    savePng ∅ Reference.two_shapes Fixtures.empty_world
    = ([SaveNull; SavePath "/tmp/export_1700000000000.png"],
       mkWorld converted 2)
    ∧ converted !! "/tmp/export_1700000000001.svg"
      = Some (toString true None Reference.two_shapes).
Proof.
  pose (file := export_path (clock_reading 1) ".svg").
  pose (png := export_path (clock_reading 0) ".png").
  pose (text := toString true None Reference.two_shapes).
  exists (<[png := "PNG of " +:+ text]> (<[file := text]> ∅)).
  split; [|vm_compute; reflexivity].
  pose proof (savePng_converts ∅ Reference.two_shapes Fixtures.empty_world
                (<[png := "PNG of " +:+ text]> (<[file := text]> ∅)))
    as Hthm.
  cbv zeta in Hthm. etrans; [apply Hthm|]; vm_compute; reflexivity.
Defined.

Lemma savePng_converter_fails_witness :
  let result := savePng {[ "output" := "/readonly/a.png" ]}
                  Reference.two_shapes Fixtures.empty_world in
  result.1 = [SaveError "gm: unable to open file for writing"]
  ∧ files result.2 !! export_path (clock_reading 1) ".svg"
    = Some (toString true None Reference.two_shapes).
Proof.
  cbv zeta.
  apply (savePng_converter_fails {[ "output" := "/readonly/a.png" ]}
           Reference.two_shapes Fixtures.empty_world);
    vm_compute; reflexivity.
Defined.

Lemma setElements_shares_array_witness :
  let o := Shared.mkObjects [[Reference.square]; []; []] [1; 2] in
  let o' := Shared.addElement Reference.segment 0
              (Shared.setElements 0 1 (Shared.setElements 0 0 o)) in
  Shared.arrays o' !! 0 = Some [Reference.square; Reference.segment]
  ∧ Shared.elements_of 0 o' = Some [Reference.square; Reference.segment]
  ∧ Shared.elements_of 1 o' = Some [Reference.square; Reference.segment].
Proof.
  cbv zeta.
  apply (setElements_shares_array 0 0 1 Reference.segment [Reference.square]
           (Shared.mkObjects [[Reference.square]; []; []] [1; 2]));
    [reflexivity|simpl; lia|simpl; lia].
Defined.

Lemma new_Svg_shares_nothing_witness :
  let o := Shared.mkObjects [[Reference.square]] [0] in
  let o2 := Shared.addElement Reference.segment 1 (Shared.new_Svg o).2 in
  Shared.elements_of 1 o2 = Some [Reference.segment]
  ∧ Shared.elements_of 0 o2 = Some [Reference.square]
  ∧ Shared.arrays o `prefix_of` Shared.arrays o2.
Proof.
  cbv zeta.
  apply (new_Svg_shares_nothing Reference.segment 0 [Reference.square]
           (Shared.mkObjects [[Reference.square]] [0])).
  reflexivity.
Defined.
